(** * Package ipc: length-prefixed frames over a named pipe

    A shallow embedding of [ipc.go] and the properties of its framing
    protocol.  The Go code is small but effectful: it talks to the file
    system, spawns goroutines, sends on channels, logs and may stop the
    whole process.  The embedding keeps these effects explicit:

    - the file system is an interface ([OS]) whose calls are recorded in a
      trace, so that "which call was made, and in which order" is a fact
      about the model;
    - channels live in a store indexed by identifiers, so that two channel
      variables may or may not denote the same channel;
    - a goroutine is a computation in the monad [Go], which threads the
      process state and stops at a panic, at [os.Exit] or at an operation
      that blocks for ever;
    - integers of type [uint64] are [Z] with the wrap-around written out.

    Modelling conventions.  A Go slice is [option (list byte)], [None] being
    the [nil] slice.  The bytes that will ever arrive on the read end of the
    pipe are given as a finite list together with what the pipe does once
    they are used up (end of file, an error, or waiting for ever).

    The read buffer.  [loggedRead] starts with [make([]byte, numBytes)],
    which the Go runtime refuses for a length it cannot allocate.  The
    functions of the reader are given twice: [loggedRead], [readFrame],
    [readerLoop] and [readerGoroutine] are the code once that buffer is
    made, and module [Limited] has the same functions with the allocator in
    front. *)

From Stdlib Require Import ZArith List Lia String.
From stdpp Require Import base option list gmap strings.
From coqutil Require Import Byte Word.LittleEndianList Z.BitOps.

(** ** Bytes, slices and errors *)

(** [[]byte]: [None] is the nil slice, [Some []] an empty non-nil slice. *)
Definition slice : Type := option (list byte).

Definition slice_bytes (s : slice) : list byte := default [] s.

(** Go's [len]. *)
Definition len (s : slice) : nat := length (slice_bytes s).

Inductive errno : Type :=
  ENOENT | EACCES | EEXIST | ENOTEMPTY | EROFS | EPIPE | EIO.

Inductive error : Type :=
| Errno (e : errno)
| EOF                          (* io.EOF *)
| ErrUnexpectedEOF             (* io.ErrUnexpectedEOF *)
| ErrShortWrite                (* io.ErrShortWrite *)
| ErrInvalid                   (* os.ErrInvalid: use of a nil *os.File *)
| ErrorString (msg : string).  (* errors.New *)

(** [os.IsNotExist]; it is [false] on the nil error. *)
Definition IsNotExist (err : option error) : bool :=
  match err with
  | Some (Errno ENOENT) => true
  | _ => false
  end.

(** ** encoding/binary, little endian *)

Definition uint64 (z : Z) : Z := (z mod 2 ^ 64)%Z.

(** [binary.LittleEndian.PutUint64] on a fresh [[8]byte]; [byte(v)] keeps
    the low eight bits. *)
Definition PutUint64 (v : Z) : list byte :=
  [ byte.of_Z v;
    byte.of_Z (Z.shiftr v 8);
    byte.of_Z (Z.shiftr v 16);
    byte.of_Z (Z.shiftr v 24);
    byte.of_Z (Z.shiftr v 32);
    byte.of_Z (Z.shiftr v 40);
    byte.of_Z (Z.shiftr v 48);
    byte.of_Z (Z.shiftr v 56) ].

(** [binary.LittleEndian.Uint64].  Its first statement is [_ = b[7]]: on a
    slice shorter than eight bytes it panics, which is [None] here. *)
Definition Uint64 (b : list byte) : option Z :=
  match b with
  | b0 :: b1 :: b2 :: b3 :: b4 :: b5 :: b6 :: b7 :: _ =>
      Some (Z.lor (byte.unsigned b0)
           (Z.lor (Z.shiftl (byte.unsigned b1) 8)
           (Z.lor (Z.shiftl (byte.unsigned b2) 16)
           (Z.lor (Z.shiftl (byte.unsigned b3) 24)
           (Z.lor (Z.shiftl (byte.unsigned b4) 32)
           (Z.lor (Z.shiftl (byte.unsigned b5) 40)
           (Z.lor (Z.shiftl (byte.unsigned b6) 48)
                  (Z.shiftl (byte.unsigned b7) 56))))))))
  | _ => None
  end.

(** The wire format in the words of the specification: the value of a byte
    string read as an unsigned little-endian number, least significant byte
    first.  [PutUint64] and [Uint64] are compared with it below. *)
Fixpoint le_value (bs : list byte) : Z :=
  match bs with
  | [] => 0%Z
  | b :: rest => (byte.unsigned b + 256 * le_value rest)%Z
  end.

(** A Frame in the words of the specification: the length of the payload as
    eight little-endian bytes, then the payload. *)
Definition frameBytes (data : slice) : list byte :=
  PutUint64 (uint64 (Z.of_nat (len data))) ++ slice_bytes data.

(** ** The read end of the pipe and io.ReadFull *)

(** What a read finds once the bytes of the stream are used up. *)
Inductive Tail : Type :=
| AtEOF                 (* every writer has closed the pipe *)
| Failing (e : error)   (* the read fails *)
| Waiting.              (* a writer is attached and sends nothing more *)

Record Reader : Type := { r_data : list byte; r_tail : Tail }.

(** The error of a read that came short: [io.ReadAtLeast] turns an [EOF]
    after some bytes into [ErrUnexpectedEOF] and passes other errors on. *)
Definition shortReadError (got : nat) (e : error) : error :=
  match e with
  | EOF => if decide (got = 0) then EOF else ErrUnexpectedEOF
  | _ => e
  end.

(** [io.ReadFull(reader, buf)] with [len(buf) = n]: the reader left behind
    and, unless the call blocks for ever, the buffer, the number of bytes
    read and the error.  Asking for zero bytes reads nothing and succeeds;
    a short stream gives [EOF] when no byte was read and [ErrUnexpectedEOF]
    when some were. *)
Definition ReadFull (r : Reader) (n : nat)
  : Reader * option (list byte * nat * option error) :=
  if decide (n ≤ length (r_data r)) then
    ({| r_data := drop n (r_data r); r_tail := r_tail r |},
     Some (take n (r_data r), n, None))
  else
    let got := length (r_data r) in
    let buf := r_data r ++ replicate (n - got) Byte.x00 in
    let r' := {| r_data := []; r_tail := r_tail r |} in
    match r_tail r with
    | AtEOF => (r', Some (buf, got, Some (shortReadError got EOF)))
    | Failing e => (r', Some (buf, got, Some (shortReadError got e)))
    | Waiting => (r', None)
    end.

(** ** bufio.Writer over the write end of the pipe *)

(** The interface the writer loop uses: [Write] of [io.Writer] and [Flush]
    of [bufio.Writer]. *)
Class BufWriter (W : Type) : Type := {
  Write : W → list byte → W * (nat * option error);
  Flush : W → W * option error
}.

(** The write end of the pipe: the bytes that reached the peer, and how many
    more the peer takes before it goes away ([None]: it never does). *)
Record PipeEnd : Type := { wire : list byte; room : option nat }.

(** [Write] of [os.File] on a pipe: everything is written, or the write stops
    with [EPIPE]. *)
Definition pipe_Write (f : PipeEnd) (p : list byte) : PipeEnd * (nat * option error) :=
  match room f with
  | None => ({| wire := wire f ++ p; room := None |}, (length p, None))
  | Some k =>
      if decide (length p ≤ k) then
        ({| wire := wire f ++ p; room := Some (k - length p) |}, (length p, None))
      else
        ({| wire := wire f ++ take k p; room := Some 0 |}, (k, Some (Errno EPIPE)))
  end.

Record bufioWriter : Type := {
  bw_err : option error;   (* sticky: once set, every Write and Flush returns it *)
  bw_buf : list byte;      (* buf[0:n] *)
  bw_size : nat;           (* len(buf) *)
  bw_wr : PipeEnd
}.

Definition defaultBufSize : nat := 4096.

Definition NewWriter (wr : PipeEnd) : bufioWriter :=
  {| bw_err := None; bw_buf := []; bw_size := defaultBufSize; bw_wr := wr |}.

Definition Buffered (b : bufioWriter) : nat := length (bw_buf b).
Definition Available (b : bufioWriter) : nat := bw_size b - Buffered b.

Definition bufio_Flush (b : bufioWriter) : bufioWriter * option error :=
  match bw_err b with
  | Some e => (b, Some e)
  | None =>
      if decide (Buffered b = 0) then (b, None)
      else
        let '(wr, (n, err)) := pipe_Write (bw_wr b) (bw_buf b) in
        let err := if decide (n < Buffered b ∧ err = None) then Some ErrShortWrite else err in
        match err with
        | Some e =>
            ({| bw_err := Some e; bw_buf := drop n (bw_buf b);
                bw_size := bw_size b; bw_wr := wr |}, Some e)
        | None =>
            ({| bw_err := None; bw_buf := []; bw_size := bw_size b; bw_wr := wr |}, None)
        end
  end.

(** The loop of [Write] of [bufio.Writer]: while the data does not fit and no
    error is set, write it through when the buffer is empty, and otherwise
    fill the buffer and flush it.  Returns the writer, what is left of [p]
    and the count [nn]. *)
Fixpoint bufio_Write_loop (fuel : nat) (b : bufioWriter) (p : list byte) (nn : nat)
  : bufioWriter * list byte * nat :=
  match fuel with
  | 0 => (b, p, nn)
  | S fuel =>
      if decide (Available b < length p ∧ bw_err b = None) then
        if decide (Buffered b = 0) then
          let '(wr, (n, err)) := pipe_Write (bw_wr b) p in
          bufio_Write_loop fuel
            {| bw_err := err; bw_buf := bw_buf b; bw_size := bw_size b; bw_wr := wr |}
            (drop n p) (nn + n)
        else
          let n := Available b in
          let filled := {| bw_err := bw_err b; bw_buf := bw_buf b ++ take n p;
                           bw_size := bw_size b; bw_wr := bw_wr b |} in
          bufio_Write_loop fuel (bufio_Flush filled).1 (drop n p) (nn + n)
      else (b, p, nn)
  end.

(** [Write] of [bufio.Writer].  On a pipe the loop runs at most twice (fill
    and flush, then write through), see [bufio_Write_loop_fuel]. *)
Definition bufio_Write (b : bufioWriter) (p : list byte) : bufioWriter * (nat * option error) :=
  let '(b, p, nn) := bufio_Write_loop 3 b p 0 in
  match bw_err b with
  | Some e => (b, (nn, Some e))
  | None =>
      ({| bw_err := None; bw_buf := bw_buf b ++ p; bw_size := bw_size b; bw_wr := bw_wr b |},
       (nn + length p, None))
  end.

#[global] Instance bufioWriter_BufWriter : BufWriter bufioWriter :=
  {| Write := bufio_Write; Flush := bufio_Flush |}.

(** ** The operating system *)

(** The three file-system calls of the package.  [os_Stat] gives the error
    of [os.Stat] only: the callers drop the [FileInfo]. *)
Class OS (F : Type) : Type := {
  os_Stat : F → string → option error;
  os_Remove : F → string → F * option error;
  syscall_Mkfifo : F → string → Z → F * option error
}.

Inductive Syscall : Type :=
| SysStat (name : string)
| SysRemove (name : string)
| SysMkfifo (name : string) (mode : Z)
| SysOpenFile (name : string) (flag : Z) (perm : Z).

(** A small file system to run the code on: the entries, the paths below a
    directory that may not be searched, whether the volume is mounted
    read-only, and the umask of the process.  A directory is empty or
    not. *)
Inductive node : Type := RegularFile | Directory (empty : bool) | NamedPipe (mode : Z).

Record posix : Type := {
  nodes : gmap string node;
  unsearchable : gset string;
  readonly : bool;
  umask : Z
}.

Definition posix_Stat (f : posix) (name : string) : option error :=
  if decide (name ∈ unsearchable f) then Some (Errno EACCES)
  else match nodes f !! name with
       | None => Some (Errno ENOENT)
       | Some _ => None
       end.

(** [os.Remove]: [unlink], then [rmdir].  The write access to the volume is
    checked before the entry is looked up, and a directory that is not
    empty stays. *)
Definition posix_Remove (f : posix) (name : string) : posix * option error :=
  if decide (name ∈ unsearchable f) then (f, Some (Errno EACCES))
  else if readonly f then (f, Some (Errno EROFS))
  else match nodes f !! name with
       | None => (f, Some (Errno ENOENT))
       | Some (Directory false) => (f, Some (Errno ENOTEMPTY))
       | Some _ =>
           ({| nodes := delete name (nodes f); unsearchable := unsearchable f;
               readonly := readonly f; umask := umask f |}, None)
       end.

(** [mkfifo]: the mode of the new pipe is the argument without the bits of
    the umask. *)
Definition posix_Mkfifo (f : posix) (name : string) (mode : Z) : posix * option error :=
  if decide (name ∈ unsearchable f) then (f, Some (Errno EACCES))
  else match nodes f !! name with
       | Some _ => (f, Some (Errno EEXIST))
       | None =>
           if readonly f then (f, Some (Errno EROFS))
           else ({| nodes := <[name := NamedPipe (Z.land mode (Z.lnot (umask f)))]> (nodes f);
                    unsearchable := unsearchable f; readonly := readonly f;
                    umask := umask f |}, None)
       end.

#[global] Instance posix_OS : OS posix :=
  {| os_Stat := posix_Stat; os_Remove := posix_Remove; syscall_Mkfifo := posix_Mkfifo |}.

(** ** Channels, goroutines and the log *)

(** A [chan []byte]: capacity, buffered messages (oldest first), closed. *)
Record Chan : Type := { ch_cap : nat; ch_buf : list slice; ch_closed : bool }.

(** The goroutines a call starts.  Channels are named by their identifier in
    the store. *)
Inductive Task : Type :=
| ReaderTask (pipePath : string) (pipeChannel : nat)
| WriterTask (pipePath : string) (pipeInput : nat)
| SignalTask.

(** The records [glog.Error] is called with. *)
Inductive LogRecord : Type :=
| CannotOpenForReading (fileErr : error)
| CannotOpenForWriting (fileErr : error)
| ReadError (readErr : error) (numBytes : Z) (bytesRead : nat)
| WriteError (writeErr : error) (size : nat) (bytesWritten : nat).

Inductive Wait : Type := OnRead | OnSend | OnReceive.

(** Why a goroutine does not go on. *)
Inductive Stop : Type :=
| Panic (msg : string)   (* a run-time panic: it takes the process down *)
| Exit (code : Z)        (* os.Exit *)
| Blocked (on : Wait)    (* an operation that never completes *)
| Fatal (msg : string)   (* a fatal error of the runtime: the process dies *)
| OutOfFuel.             (* the model's step bound was reached *)

Inductive Result (A : Type) : Type :=
| Ret (a : A)
| Halt (s : Stop).
Arguments Ret {A} a.
Arguments Halt {A} s.

Section Program.
Context {F : Type} `{!OS F}.

Record Process : Type := {
  fs : F;
  syscalls : list Syscall;      (* oldest first *)
  chans : gmap nat Chan;
  goroutines : list Task;       (* in the order they were started *)
  glog : list LogRecord         (* oldest first *)
}.

Definition Go (A : Type) : Type := Process → Result A * Process.

#[global] Instance Go_ret : MRet Go := λ A a p, (Ret a, p).

#[global] Instance Go_bind : MBind Go := λ A B f m p,
  match m p with
  | (Ret a, p') => f a p'
  | (Halt s, p') => (Halt s, p')
  end.

Definition halt {A} (s : Stop) : Go A := λ p, (Halt s, p).

Definition os_Exit (code : Z) : Go unit := halt (Exit code).

(** The process after [glog.Error] has written a record. *)
Definition logged (p : Process) (r : LogRecord) : Process :=
  {| fs := fs p; syscalls := syscalls p; chans := chans p;
     goroutines := goroutines p; glog := glog p ++ [r] |}.

Definition glog_Error (r : LogRecord) : Go unit := λ p, (Ret tt, logged p r).

(** The [go] statement. *)
Definition go (t : Task) : Go unit := λ p,
  (Ret tt, {| fs := fs p; syscalls := syscalls p; chans := chans p;
              goroutines := goroutines p ++ [t]; glog := glog p |}).

Definition set_chans (p : Process) (cs : gmap nat Chan) : Process :=
  {| fs := fs p; syscalls := syscalls p; chans := cs;
     goroutines := goroutines p; glog := glog p |}.

(** [make(chan []byte, cap)]: a channel no one else holds. *)
Definition make_chan (cap : nat) : Go nat := λ p,
  let c := fresh (dom (chans p)) in
  (Ret c, set_chans p (<[c := {| ch_cap := cap; ch_buf := []; ch_closed := false |}]> (chans p))).

(** The process after the messages [ms] have been put, in this order, in the
    buffer of the open channel [c], which was [ch]. *)
Definition buffered (p : Process) (c : nat) (ch : Chan) (ms : list slice) : Process :=
  set_chans p (<[c := {| ch_cap := ch_cap ch; ch_buf := ch_buf ch ++ ms;
                         ch_closed := false |}]> (chans p)).

(** [c <- m] when no goroutine receives from [c]: the message is buffered
    while there is room and the send blocks for ever otherwise.  An
    identifier outside the store is the nil channel. *)
Definition send (c : nat) (m : slice) : Go unit := λ p,
  match chans p !! c with
  | None => (Halt (Blocked OnSend), p)
  | Some ch =>
      if ch_closed ch then (Halt (Panic "send on closed channel"), p)
      else if decide (length (ch_buf ch) < ch_cap ch) then (Ret tt, buffered p c ch [m])
      else (Halt (Blocked OnSend), p)
  end.

(** One step of [for data := range c]: the next message, or [None] when the
    channel is closed and drained. *)
Definition receive (c : nat) : Go (option slice) := λ p,
  match chans p !! c with
  | None => (Halt (Blocked OnReceive), p)
  | Some ch =>
      match ch_buf ch with
      | m :: rest =>
          (Ret (Some m), set_chans p (<[c := {| ch_cap := ch_cap ch; ch_buf := rest;
                                                ch_closed := ch_closed ch |}]> (chans p)))
      | [] => if ch_closed ch then (Ret None, p) else (Halt (Blocked OnReceive), p)
      end
  end.

(** The process after the first [n] messages have been taken from channel
    [c], which was [ch]. *)
Definition drained (p : Process) (c : nat) (ch : Chan) (n : nat) : Process :=
  set_chans p (<[c := {| ch_cap := ch_cap ch; ch_buf := drop n (ch_buf ch);
                         ch_closed := ch_closed ch |}]> (chans p)).

(** The messages waiting on a channel. *)
Definition pending (c : nat) (p : Process) : list slice :=
  match chans p !! c with
  | Some ch => ch_buf ch
  | None => []
  end.

(** System calls, recorded in the trace. *)
Definition record (p : Process) (f : F) (c : Syscall) : Process :=
  {| fs := f; syscalls := syscalls p ++ [c]; chans := chans p;
     goroutines := goroutines p; glog := glog p |}.

Definition Stat (name : string) : Go (option error) := λ p,
  (Ret (os_Stat (fs p) name), record p (fs p) (SysStat name)).

Definition Remove (name : string) : Go (option error) := λ p,
  let '(f, err) := os_Remove (fs p) name in (Ret err, record p f (SysRemove name)).

Definition Mkfifo (name : string) (mode : Z) : Go (option error) := λ p,
  let '(f, err) := syscall_Mkfifo (fs p) name mode in (Ret err, record p f (SysMkfifo name mode)).

Definition O_RDONLY : Z := 0.
Definition O_WRONLY : Z := 1.

(** [os.OpenFile] on the pipe.  What the open returns is decided by the
    peer, so it is an input of the goroutine. *)
Definition OpenFile {H : Type} (name : string) (flag perm : Z) (opened : error + H)
  : Go (error + H) := λ p,
  (Ret opened, record p (fs p) (SysOpenFile name flag perm)).

(** ** ipc.go *)

Definition doesFileExist (fileName : string) : Go bool :=
  error ← Stat fileName;
  mret (negb (IsNotExist error)).

Definition CreatePipe (pipePath : string) : Go (option error) :=
  found ← doesFileExist pipePath;
  removed ← (if found : bool then Remove pipePath else mret None);
  match removed with
  | Some err => mret (Some err)
  | None => Mkfifo pipePath 511
  end.

(** [setupCloseHandler] starts the goroutine that waits for SIGINT or
    SIGTERM and then calls [os.Exit(0)]. *)
Definition setupCloseHandler : Go unit := go SignalTask.

(** [loggedRead] from its second line on: the buffer of [numBytes] bytes is
    made, it is read into and the outcome is logged.  The function with its
    first line, [make([]byte, numBytes)], is [Limited.loggedRead]. *)
Definition loggedRead (reader : Reader) (numBytes : Z) : Go (slice * Reader) :=
  match ReadFull reader (Z.to_nat numBytes) with
  | (_, None) => halt (Blocked OnRead)
  | (reader, Some (readData, bytesRead, Some readErr)) =>
      glog_Error (ReadError readErr numBytes bytesRead);;
      mret (None, reader)
  | (reader, Some (readData, _, None)) => mret (Some readData, reader)
  end.

Definition numSizeBytes : Z := 64 / 8.

(** [binary.LittleEndian.Uint64(readSizeBytes[:])] in the goroutine. *)
Definition Uint64_of (b : slice) : Go Z :=
  match Uint64 (slice_bytes b) with
  | Some v => mret v
  | None => halt (Panic "index out of range [7]")
  end.

(** The body of the reader's loop up to the send: the message it is about
    to put on its channel. *)
Definition readFrame (reader : Reader) : Go (slice * Reader) :=
  '(readSizeBytes, reader) ← loggedRead reader numSizeBytes;
  readSize ← Uint64_of readSizeBytes;
  loggedRead reader readSize.

(** [for { ... pipeChannel <- readData }].  The loop has no exit; it stops
    only by a panic or on an operation that blocks. *)
Fixpoint readerLoop (fuel : nat) (reader : Reader) (pipeChannel : nat) : Go unit :=
  match fuel with
  | 0 => halt OutOfFuel
  | S fuel =>
      '(readData, reader) ← readFrame reader;
      send pipeChannel readData;;
      readerLoop fuel reader pipeChannel
  end.

(** A reader whose file is the nil [*os.File]: every read fails. *)
Definition nilFileReader : Reader := {| r_data := []; r_tail := Failing ErrInvalid |}.

(** The goroutine of [OpenPipeReader].  Every turn of the loop that goes on
    uses at least the eight bytes of a prefix, so the bound is never
    reached ([readerLoop_fuel]). *)
Definition readerGoroutine (pipePath : string) (pipeChannel : nat) (opened : error + Reader)
  : Go unit :=
  setupCloseHandler;;
  pipe ← OpenFile pipePath O_RDONLY 511 opened;
  reader ← match pipe with
            | inl fileErr => glog_Error (CannotOpenForReading fileErr);; mret nilFileReader
            | inr pipe => mret pipe
            end;
  readerLoop (S (length (r_data reader))) reader pipeChannel.

Definition OpenPipeReader (pipePath : string) (pipeData : nat) : Go (option error) :=
  found ← doesFileExist pipePath;
  if negb found then mret (Some (ErrorString "File doesn't exitst"))
  else
    pipeChannel ← make_chan 10;
    go (ReaderTask pipePath pipeChannel);;
    mret None.

Section Writer.
Context {W : Type} `{!BufWriter W}.

Definition loggedWrite (writer : W) (data : list byte) : Go W :=
  let '(writer, (bytesWritten, writeErr)) := Write writer data in
  match writeErr with
  | Some writeErr =>
      os_Exit 1;;
      glog_Error (WriteError writeErr (length data) bytesWritten);;
      mret writer
  | None => mret writer
  end.

(** The body of the writer's loop. *)
Definition writeFrame (writer : W) (data : slice) : Go W :=
  let writeSizeBytes := PutUint64 (uint64 (Z.of_nat (len data))) in
  writer ← loggedWrite writer writeSizeBytes;
  writer ← loggedWrite writer (slice_bytes data);
  mret (Flush writer).1.

(** [for data := range pipeInput { ... }] *)
Fixpoint writerLoop (fuel : nat) (writer : W) (pipeInput : nat) : Go W :=
  match fuel with
  | 0 => halt OutOfFuel
  | S fuel =>
      next ← receive pipeInput;
      match next with
      | None => mret writer
      | Some data =>
          writer ← writeFrame writer data;
          writerLoop fuel writer pipeInput
      end
  end.

(** The goroutine of [OpenPipeWriter]; [nilFile] is the writer over the nil
    [*os.File] that a failed open leaves. *)
Definition writerGoroutine (pipePath : string) (pipeInput : nat)
    (nilFile : W) (opened : error + W) : Go W :=
  setupCloseHandler;;
  pipe ← OpenFile pipePath O_WRONLY 511 opened;
  writer ← match pipe with
            | inl fileErr => glog_Error (CannotOpenForWriting fileErr);; mret nilFile
            | inr pipe => mret pipe
            end;
  (λ p, writerLoop (S (length (pending pipeInput p))) writer pipeInput p) : Go W.

End Writer.

Definition OpenPipeWriter (pipePath : string) (pipeInput : nat) : Go (option error) :=
  found ← doesFileExist pipePath;
  if negb found then mret (Some (ErrorString "File doesn't exitst"))
  else
    go (WriterTask pipePath pipeInput);;
    mret None.

End Program.

Arguments Process F : clear implicits.
Arguments Go F A : clear implicits.

(** ** The allocator and the reader *)

(** What the Go runtime can allocate.  [make] panics on a length above
    [maxAlloc] (at most the largest [int]; 2^48 bytes on linux/amd64), and
    the process dies of a fatal out-of-memory error on a length below it
    that the machine cannot serve, which is a length above [memory]. *)
Record Runtime : Type := { maxAlloc : Z; memory : Z }.

Definition allocatable (rt : Runtime) (numBytes : Z) : Prop :=
  (numBytes ≤ maxAlloc rt ∧ numBytes ≤ memory rt)%Z.

(** The reader of [ipc.go] with the allocator: every function is the one
    above with [make] in its place. *)
Module Limited.
Section Limited.
Context {F : Type} `{!OS F} (rt : Runtime).

(** [make([]byte, numBytes)] *)
Definition makeslice (numBytes : Z) : Go F unit :=
  if decide (maxAlloc rt < numBytes)%Z then halt (Panic "makeslice: len out of range")
  else if decide (memory rt < numBytes)%Z then halt (Fatal "runtime: out of memory")
  else mret tt.

Definition loggedRead (reader : Reader) (numBytes : Z) : Go F (slice * Reader) :=
  makeslice numBytes;;
  loggedRead reader numBytes.

Definition readFrame (reader : Reader) : Go F (slice * Reader) :=
  '(readSizeBytes, reader) ← loggedRead reader numSizeBytes;
  readSize ← Uint64_of readSizeBytes;
  loggedRead reader readSize.

Fixpoint readerLoop (fuel : nat) (reader : Reader) (pipeChannel : nat) : Go F unit :=
  match fuel with
  | 0 => halt OutOfFuel
  | S fuel =>
      '(readData, reader) ← readFrame reader;
      send pipeChannel readData;;
      readerLoop fuel reader pipeChannel
  end.

Definition readerGoroutine (pipePath : string) (pipeChannel : nat) (opened : error + Reader)
  : Go F unit :=
  setupCloseHandler;;
  pipe ← OpenFile pipePath O_RDONLY 511 opened;
  reader ← match pipe with
            | inl fileErr => glog_Error (CannotOpenForReading fileErr);; mret nilFileReader
            | inr pipe => mret pipe
            end;
  readerLoop (S (length (r_data reader))) reader pipeChannel.

End Limited.
End Limited.

(** ** The scenarios of the specification *)

Definition testPipe : string := "/tmp/test.pipe".

(** File systems: the pipe has been created; nothing is at the path; the
    directory of the path may not be searched (and holds nothing). *)
Definition withPipe : posix :=
  {| nodes := {[ testPipe := NamedPipe 493 ]}; unsearchable := ∅; readonly := false;
     umask := 18 |}.

Definition emptyDisk : posix :=
  {| nodes := ∅; unsearchable := ∅; readonly := false; umask := 18 |}.

Definition lockedDirectory : posix :=
  {| nodes := ∅; unsearchable := {[ testPipe ]}; readonly := false; umask := 18 |}.

Definition readonlyDisk : posix :=
  {| nodes := {[ testPipe := RegularFile ]}; unsearchable := ∅; readonly := true;
     umask := 18 |}.

(** A process that has made the queue it hands to the package, holding
    [msgs], and nothing else. *)
Definition callerQueue : nat := 0.

Definition started (f : posix) (cap : nat) (msgs : list slice) (closed : bool)
  : Process posix :=
  {| fs := f; syscalls := [];
     chans := {[ callerQueue := {| ch_cap := cap; ch_buf := msgs; ch_closed := closed |} ]};
     goroutines := []; glog := [] |}.

(** The process after [OpenPipeReader(testPipe, callerQueue)], and the
    channel that call made. *)
Definition readerStarted : Process posix :=
  (OpenPipeReader testPipe callerQueue (started withPipe 10 [] false)).2.

Definition pipeChannel : nat := 1.

(** A pipe that is being read, and one whose reader is gone. *)
Definition openPipe : PipeEnd := {| wire := []; room := None |}.
Definition brokenPipe : PipeEnd := {| wire := []; room := Some 0 |}.

(** The writer over the nil file that a failed open leaves. *)
Definition nilFileWriter : bufioWriter := NewWriter brokenPipe.


(** A runtime of linux/amd64 on a machine with 1 GiB to spare. *)
Definition amd64 : Runtime := {| maxAlloc := 2 ^ 48; memory := 2 ^ 30 |}.

Definition payloadA : slice := Some [Byte.x01; Byte.x02; Byte.x03].

(** Eleven distinct messages of one byte. *)
Definition elevenMessages : list slice :=
  map (λ b, Some [b])
    [Byte.x00; Byte.x01; Byte.x02; Byte.x03; Byte.x04; Byte.x05;
     Byte.x06; Byte.x07; Byte.x08; Byte.x09; Byte.x0a].

(** * Properties *)

(** ** The length prefix *)

Section Codec.
Local Open Scope Z_scope.

Lemma le_value_le_combine (bs : list byte) : le_value bs = le_combine bs.
Proof.
  induction bs as [|b bs IH]; [done|].
  cbn [le_value].
  change (le_combine (b :: bs)) with (Z.lor (byte.unsigned b) (Z.shiftl (le_combine bs) 8)).
  rewrite IH, or_to_plus.
  - rewrite Z.shiftl_mul_pow2 by lia. lia.
  - pose proof (byte.unsigned_range b) as Hb.
    apply Z.bits_inj'. intros n Hn. rewrite Z.land_spec, Z.bits_0.
    destruct (Z.lt_ge_cases n 8) as [Hlow|Hhigh].
    + rewrite (Z.shiftl_spec_low _ _ _ Hlow). apply andb_false_r.
    + replace (Z.testbit (byte.unsigned b) n) with false; [done|].
      symmetry. apply (Z.bits_above_log2 (byte.unsigned b) n); [lia|].
      destruct (Z.eq_dec (byte.unsigned b) 0) as [->|Hnz]; [simpl; lia|].
      assert (Z.log2 (byte.unsigned b) < 8); [|lia].
      apply Z.log2_lt_pow2; lia.
Qed.

Lemma Uint64_le_combine b0 b1 b2 b3 b4 b5 b6 b7 rest :
  Uint64 (b0 :: b1 :: b2 :: b3 :: b4 :: b5 :: b6 :: b7 :: rest)
  = Some (le_combine [b0; b1; b2; b3; b4; b5; b6; b7]).
Proof.
  unfold Uint64. f_equal.
  change (le_combine [b0; b1; b2; b3; b4; b5; b6; b7]) with
    (Z.lor (byte.unsigned b0) (Z.shiftl
    (Z.lor (byte.unsigned b1) (Z.shiftl
    (Z.lor (byte.unsigned b2) (Z.shiftl
    (Z.lor (byte.unsigned b3) (Z.shiftl
    (Z.lor (byte.unsigned b4) (Z.shiftl
    (Z.lor (byte.unsigned b5) (Z.shiftl
    (Z.lor (byte.unsigned b6) (Z.shiftl
    (Z.lor (byte.unsigned b7) (Z.shiftl 0 8)) 8)) 8)) 8)) 8)) 8)) 8)) 8)).
  rewrite !Z.shiftl_lor, !Z.shiftl_shiftl, Z.shiftl_0_l, Z.lor_0_r by lia.
  reflexivity.
Qed.

(** [Uint64] reads the first eight bytes as a little-endian number. *)
Lemma Uint64_le_value (prefix rest : list byte) :
  length prefix = 8%nat → Uint64 (prefix ++ rest) = Some (le_value prefix).
Proof.
  intros Hlen. do 8 (destruct prefix as [|? prefix]; [discriminate Hlen|]).
  destruct prefix; [|discriminate Hlen].
  rewrite le_value_le_combine. apply Uint64_le_combine.
Qed.

(** On fewer than eight bytes it panics. *)
Lemma Uint64_short (b : list byte) : (length b < 8)%nat → Uint64 b = None.
Proof.
  intros Hlen. do 8 (destruct b as [|? b]; [reflexivity|]).
  simpl in Hlen. lia.
Qed.

Lemma PutUint64_le_split (v : Z) : PutUint64 v = le_split 8 v.
Proof.
  change (le_split 8 v) with
    [ byte.of_Z v;
      byte.of_Z (Z.shiftr v 8);
      byte.of_Z (Z.shiftr (Z.shiftr v 8) 8);
      byte.of_Z (Z.shiftr (Z.shiftr (Z.shiftr v 8) 8) 8);
      byte.of_Z (Z.shiftr (Z.shiftr (Z.shiftr (Z.shiftr v 8) 8) 8) 8);
      byte.of_Z (Z.shiftr (Z.shiftr (Z.shiftr (Z.shiftr (Z.shiftr v 8) 8) 8) 8) 8);
      byte.of_Z (Z.shiftr (Z.shiftr (Z.shiftr (Z.shiftr (Z.shiftr (Z.shiftr v 8) 8) 8) 8) 8) 8);
      byte.of_Z (Z.shiftr (Z.shiftr (Z.shiftr (Z.shiftr (Z.shiftr (Z.shiftr
                   (Z.shiftr v 8) 8) 8) 8) 8) 8) 8) ].
  unfold PutUint64. rewrite !Z.shiftr_shiftr by lia. reflexivity.
Qed.

Lemma length_PutUint64 v : length (PutUint64 v) = 8%nat.
Proof. reflexivity. Qed.

Lemma le_value_PutUint64 v : le_value (PutUint64 v) = uint64 v.
Proof. rewrite le_value_le_combine, PutUint64_le_split. apply le_combine_split. Qed.

Lemma Uint64_PutUint64 v rest : Uint64 (PutUint64 v ++ rest) = Some (uint64 v).
Proof. rewrite Uint64_le_value by done. by rewrite le_value_PutUint64. Qed.

Lemma le_value_bound bs : 0 ≤ le_value bs < 2 ^ (8 * Z.of_nat (length bs)).
Proof. rewrite le_value_le_combine. apply le_combine_bound. Qed.

Lemma uint64_small z : 0 ≤ z < 2 ^ 64 → uint64 z = z.
Proof. intros. unfold uint64. by apply Z.mod_small. Qed.

End Codec.

(** ** The monad *)

Section Monad.
Context {F : Type} `{!OS F}.

Lemma bind_unfold {A B} (m : Go F A) (f : A → Go F B) (p : Process F) :
  (m ≫= f) p = match m p with
               | (Ret a, p') => f a p'
               | (Halt s, p') => (Halt s, p')
               end.
Proof. reflexivity. Qed.

Lemma bind_ret {A B} (m : Go F A) (f : A → Go F B) (p p' : Process F) a :
  m p = (Ret a, p') → (m ≫= f) p = f a p'.
Proof. intros Hm. by rewrite bind_unfold, Hm. Qed.

Lemma bind_halt {A B} (m : Go F A) (f : A → Go F B) (p p' : Process F) s :
  m p = (Halt s, p') → (m ≫= f) p = (Halt s, p').
Proof. intros Hm. by rewrite bind_unfold, Hm. Qed.

End Monad.

(** ** The reader's loop *)

Section ReaderProofs.
Context {F : Type} `{!OS F}.
Implicit Types (p : Process F) (r : Reader) (c : nat).

Lemma loggedRead_enough (data rest : list byte) tl (numBytes : Z) p :
  Z.to_nat numBytes = length data →
  loggedRead {| r_data := data ++ rest; r_tail := tl |} numBytes p
  = (Ret (Some data, {| r_data := rest; r_tail := tl |}), p).
Proof.
  intros Hn. unfold loggedRead, ReadFull. cbn [r_data r_tail]. rewrite Hn.
  rewrite decide_True by (rewrite length_app; lia).
  by rewrite take_app_length, drop_app_length.
Qed.

Lemma loggedRead_short r (numBytes : Z) p :
  length (r_data r) < Z.to_nat numBytes →
  match r_tail r with
  | Waiting => loggedRead r numBytes p = (Halt (Blocked OnRead), p)
  | _ => ∃ readErr,
      loggedRead r numBytes p
      = (Ret (None, {| r_data := []; r_tail := r_tail r |}),
         logged p (ReadError readErr numBytes (length (r_data r))))
  end.
Proof.
  intros Hn. unfold loggedRead, ReadFull.
  rewrite decide_False by lia.
  destruct (r_tail r); eauto.
Qed.

Lemma loggedRead_cases r (numBytes : Z) p :
  (∃ data rest, r_data r = data ++ rest ∧ length data = Z.to_nat numBytes ∧
     loggedRead r numBytes p = (Ret (Some data, {| r_data := rest; r_tail := r_tail r |}), p))
  ∨ (length (r_data r) < Z.to_nat numBytes ∧
     loggedRead r numBytes p = (Halt (Blocked OnRead), p))
  ∨ (length (r_data r) < Z.to_nat numBytes ∧ ∃ readErr,
     loggedRead r numBytes p
     = (Ret (None, {| r_data := []; r_tail := r_tail r |}),
        logged p (ReadError readErr numBytes (length (r_data r))))).
Proof.
  destruct (decide (Z.to_nat numBytes ≤ length (r_data r))) as [Hle|Hgt].
  - left. exists (take (Z.to_nat numBytes) (r_data r)), (drop (Z.to_nat numBytes) (r_data r)).
    rewrite take_drop, length_take. split; [done|]. split; [lia|].
    destruct r as [data tl]. cbn [r_data r_tail] in *.
    rewrite <- (take_drop (Z.to_nat numBytes) data) at 1.
    apply loggedRead_enough. rewrite length_take. lia.
  - right. pose proof (loggedRead_short r numBytes p ltac:(lia)) as Hs.
    destruct (r_tail r); [right|right|left]; (split; [lia|done]).
Qed.


Lemma Uint64_of_prefix (prefix : list byte) p :
  length prefix = 8 → Uint64_of (Some prefix) p = (Ret (le_value prefix), p).
Proof.
  intros Hlen. unfold Uint64_of. change (slice_bytes (Some prefix)) with prefix.
  pose proof (Uint64_le_value prefix [] Hlen) as Hv.
  rewrite app_nil_r in Hv. by rewrite Hv.
Qed.

(** Once the eight bytes of the prefix are there, the loop asks for as many
    bytes as they declare. *)
Lemma readFrame_prefix (prefix rest : list byte) tl p :
  length prefix = 8 →
  readFrame {| r_data := prefix ++ rest; r_tail := tl |} p
  = loggedRead {| r_data := rest; r_tail := tl |} (le_value prefix) p.
Proof.
  intros Hlen. unfold readFrame.
  rewrite bind_unfold, loggedRead_enough by (rewrite Hlen; reflexivity).
  rewrite bind_unfold, Uint64_of_prefix by done.
  reflexivity.
Qed.

(** A stream that ends inside the prefix: [loggedRead] returns nil and
    [Uint64] indexes it. *)
Lemma readFrame_short_prefix r p :
  length (r_data r) < 8 →
  match r_tail r with
  | Waiting => readFrame r p = (Halt (Blocked OnRead), p)
  | _ => ∃ readErr,
      readFrame r p
      = (Halt (Panic "index out of range [7]"),
         logged p (ReadError readErr 8 (length (r_data r))))
  end.
Proof.
  intros Hlen. unfold readFrame.
  pose proof (loggedRead_short r numSizeBytes p Hlen) as Hs.
  destruct (r_tail r).
  - destruct Hs as [e He]. exists e. by rewrite bind_unfold, He.
  - destruct Hs as [e' He]. exists e'. by rewrite bind_unfold, He.
  - by rewrite bind_unfold, Hs.
Qed.

Lemma readFrame_inv r p :
  match readFrame r p with
  | (Ret (_, r'), p') =>
      length (r_data r') + 8 ≤ length (r_data r) ∧ r_tail r' = r_tail r ∧ chans p' = chans p
  | (Halt s, p') => s ≠ OutOfFuel ∧ chans p' = chans p
  end.
Proof.
  destruct (decide (length (r_data r) < 8)) as [Hshort|Hlong].
  - pose proof (readFrame_short_prefix r p Hshort) as Hs.
    destruct (r_tail r); [destruct Hs as [e ->]|destruct Hs as [e' ->]|rewrite Hs]; done.
  - destruct r as [data tl]. cbn [r_data r_tail] in *.
    assert (∃ prefix rest, data = prefix ++ rest ∧ length prefix = 8)
      as (prefix & rest & -> & Hp).
    { exists (take 8 data), (drop 8 data). rewrite take_drop, length_take. split; [done|lia]. }
    rewrite readFrame_prefix, length_app, Hp by done.
    destruct (loggedRead_cases {| r_data := rest; r_tail := tl |} (le_value prefix) p)
      as [(d & rst & Hd & _ & ->)|[[_ ->]|(_ & e & ->)]]; cbn [r_data r_tail] in *.
    + subst rest. rewrite length_app. split; [lia|done].
    + done.
    + split; [simpl; lia|done].
Qed.

Lemma send_room c (m : slice) p ch :
  chans p !! c = Some ch → ch_closed ch = false → length (ch_buf ch) < ch_cap ch →
  send c m p = (Ret tt, buffered p c ch [m]).
Proof. intros Hc Hopen Hroom. unfold send. by rewrite Hc, Hopen, decide_True. Qed.

Lemma send_full c (m : slice) p ch :
  chans p !! c = Some ch → ch_closed ch = false → ch_cap ch ≤ length (ch_buf ch) →
  send c m p = (Halt (Blocked OnSend), p).
Proof. intros Hc Hopen Hfull. unfold send. rewrite Hc, Hopen, decide_False; [done|lia]. Qed.

Lemma send_inv c (m : slice) p :
  match send c m p with
  | (Ret _, p') => ∃ ch, chans p !! c = Some ch ∧ p' = buffered p c ch [m]
  | (Halt s, p') => s ≠ OutOfFuel ∧ p' = p
  end.
Proof.
  unfold send. destruct (chans p !! c) as [ch|]; [|done].
  destruct (ch_closed ch); [done|]. case_decide; [eauto|done].
Qed.

Lemma readerLoop_S fuel r c p :
  readerLoop (S fuel) r c p
  = match readFrame r p with
    | (Ret (readData, r'), p') =>
        match send c readData p' with
        | (Ret _, p'') => readerLoop fuel r' c p''
        | (Halt s, p'') => (Halt s, p'')
        end
    | (Halt s, p') => (Halt s, p')
    end.
Proof.
  cbn [readerLoop]. rewrite bind_unfold.
  destruct (readFrame r p) as [[[m r']|s] p']; [|done].
  by rewrite bind_unfold.
Qed.

(** The step bound is never what stops the loop, and more fuel changes
    nothing. *)
Lemma readerLoop_fuel fuel r c p :
  length (r_data r) < fuel →
  (readerLoop fuel r c p).1 ≠ Halt OutOfFuel ∧
  ∀ more, fuel ≤ more → readerLoop more r c p = readerLoop fuel r c p.
Proof.
  revert r p. induction fuel as [|fuel IH]; intros r p Hlen; [lia|].
  pose proof (readFrame_inv r p) as Hinv.
  split.
  - rewrite readerLoop_S. destruct (readFrame r p) as [[[m r']|s] p'].
    + pose proof (send_inv c m p') as Hsend.
      destruct (send c m p') as [[[]|s] p''].
      * apply IH. lia.
      * cbn. destruct Hsend. congruence.
    + cbn. destruct Hinv. congruence.
  - intros [|more] Hmore; [lia|]. rewrite !readerLoop_S.
    destruct (readFrame r p) as [[[m r']|s] p']; [|done].
    destruct (send c m p') as [[[]|s] p'']; [|done].
    apply IH; lia.
Qed.

(** The loop touches no channel but its own. *)
Lemma readerLoop_other_chan fuel r c p (c' : nat) :
  c' ≠ c → chans (readerLoop fuel r c p).2 !! c' = chans p !! c'.
Proof.
  intros Hne. revert r p. induction fuel as [|fuel IH]; intros r p; [done|].
  rewrite readerLoop_S. pose proof (readFrame_inv r p) as Hinv.
  destruct (readFrame r p) as [[[m r']|s] p'].
  - destruct Hinv as (_ & _ & <-). pose proof (send_inv c m p') as Hsend.
    destruct (send c m p') as [[[]|s] p''].
    + destruct Hsend as (ch & _ & ->). rewrite IH. cbn.
      by rewrite lookup_insert_ne.
    + by destruct Hsend as [_ ->].
  - destruct Hinv as [_ Hc]. cbn. by rewrite Hc.
Qed.

(** What the writer frames, the reader's loop body gives back. *)
Lemma readFrame_frameBytes (data : slice) (rest : list byte) tl p :
  (Z.of_nat (len data) < 2 ^ 64)%Z →
  readFrame {| r_data := frameBytes data ++ rest; r_tail := tl |} p
  = (Ret (Some (slice_bytes data), {| r_data := rest; r_tail := tl |}), p).
Proof.
  intros Hlen. unfold frameBytes. rewrite <- app_assoc.
  rewrite readFrame_prefix by apply length_PutUint64.
  rewrite le_value_PutUint64, !(uint64_small (Z.of_nat (len data))) by lia.
  apply loggedRead_enough. unfold len. lia.
Qed.

Lemma buffered_lookup p c ch (ms : list slice) :
  chans (buffered p c ch ms) !! c
  = Some {| ch_cap := ch_cap ch; ch_buf := ch_buf ch ++ ms; ch_closed := false |}.
Proof. unfold buffered. cbn. by rewrite lookup_insert_eq. Qed.

Lemma buffered_buffered p c ch ch' (ms ms' : list slice) :
  ch_cap ch' = ch_cap ch → ch_buf ch' = ch_buf ch ++ ms →
  buffered (buffered p c ch ms) c ch' ms' = buffered p c ch (ms ++ ms').
Proof.
  intros Hcap Hbuf. unfold buffered, set_chans. cbn.
  by rewrite insert_insert_eq, Hcap, Hbuf, app_assoc.
Qed.

Lemma buffered_nil p c ch :
  chans p !! c = Some ch → ch_closed ch = false → buffered p c ch [] = p.
Proof.
  intros Hc Hopen. unfold buffered, set_chans. rewrite app_nil_r.
  destruct ch as [cap buf closed]. cbn in *. subst closed.
  rewrite insert_id by done. by destruct p.
Qed.

(** Frames are decoded in the order they are on the wire, as long as the
    loop's channel has room for them. *)
Lemma readerLoop_frames (msgs : list slice) (rest : list byte) tl c fuel p ch :
  Forall (λ m, (Z.of_nat (len m) < 2 ^ 64)%Z) msgs →
  chans p !! c = Some ch → ch_closed ch = false →
  length (ch_buf ch) + length msgs ≤ ch_cap ch →
  readerLoop (length msgs + fuel)
    {| r_data := concat (map frameBytes msgs) ++ rest; r_tail := tl |} c p
  = readerLoop fuel {| r_data := rest; r_tail := tl |} c
      (buffered p c ch (map (λ m, Some (slice_bytes m)) msgs)).
Proof.
  intros Hall. revert p ch.
  induction Hall as [|m msgs Hm _ IH]; intros p ch Hc Hopen Hroom.
  - cbn. by rewrite buffered_nil.
  - cbn [length Nat.add map concat]. rewrite <- app_assoc.
    rewrite readerLoop_S, readFrame_frameBytes by done.
    cbn in Hroom. rewrite (send_room _ _ _ ch) by (done || lia).
    rewrite (IH _ _ (buffered_lookup _ _ _ _)); cbn; [|done|rewrite length_app; cbn; lia].
    by rewrite buffered_buffered.
Qed.

End ReaderProofs.

(** ** bufio.Writer on a pipe *)

Section Bufio.
Implicit Types (b : bufioWriter) (f : PipeEnd) (p : list byte).

Lemma pipe_Write_inv f p :
  match pipe_Write f p with
  | (_, (n, None)) => n = length p
  | (_, (n, Some _)) => n < length p
  end.
Proof.
  unfold pipe_Write. destruct (room f) as [k|]; [|done].
  case_decide; [done|lia].
Qed.

Lemma pipe_Write_open f p :
  room f = None → pipe_Write f p = ({| wire := wire f ++ p; room := None |}, (length p, None)).
Proof. intros Hroom. unfold pipe_Write. by rewrite Hroom. Qed.

Lemma bufio_Write_loop_settled fuel b p nn :
  ¬ (Available b < length p ∧ bw_err b = None) →
  bufio_Write_loop fuel b p nn = (b, p, nn).
Proof. intros Hs. destruct fuel; [done|]. cbn. by rewrite decide_False. Qed.

Lemma bufio_Write_loop_through fuel b p nn :
  Available b < length p → bw_err b = None → Buffered b = 0 →
  bufio_Write_loop (S fuel) b p nn
  = let '(wr, (n, err)) := pipe_Write (bw_wr b) p in
    ({| bw_err := err; bw_buf := bw_buf b; bw_size := bw_size b; bw_wr := wr |},
     drop n p, nn + n).
Proof.
  intros Hfit Herr Hempty. cbn [bufio_Write_loop].
  rewrite decide_True, decide_True by done.
  pose proof (pipe_Write_inv (bw_wr b) p) as Hinv.
  destruct (pipe_Write (bw_wr b) p) as [wr [n [e|]]].
  - apply bufio_Write_loop_settled. cbn. by intros [_ ?].
  - apply bufio_Write_loop_settled. subst n. rewrite drop_all. cbn. lia.
Qed.

Lemma bufio_Flush_inv b :
  match bufio_Flush b with
  | (b', None) => bw_err b' = None ∧ Buffered b' = 0 ∧ bw_size b' = bw_size b
  | (b', Some e) => bw_err b' = Some e ∧ bw_size b' = bw_size b
  end.
Proof.
  unfold bufio_Flush. destruct (bw_err b) as [e|] eqn:Herr; [done|].
  case_decide; [done|].
  destruct (pipe_Write (bw_wr b) (bw_buf b)) as [wr [n err]].
  case_decide; [done|]. by destruct err.
Qed.

Lemma bufio_Write_loop_fill fuel b p nn :
  Available b < length p → bw_err b = None → Buffered b ≠ 0 →
  bufio_Write_loop (S fuel) b p nn
  = bufio_Write_loop fuel
      (bufio_Flush {| bw_err := bw_err b; bw_buf := bw_buf b ++ take (Available b) p;
                      bw_size := bw_size b; bw_wr := bw_wr b |}).1
      (drop (Available b) p) (nn + Available b).
Proof.
  intros Hfit Herr Hfull. cbn [bufio_Write_loop].
  by rewrite decide_True, decide_False.
Qed.

(** Three turns are all the loop of [Write] ever takes on a pipe. *)
Lemma bufio_Write_loop_fuel k b p nn :
  bufio_Write_loop (3 + k) b p nn = bufio_Write_loop 3 b p nn.
Proof.
  change (3 + k) with (S (S (S k))).
  destruct (decide (Available b < length p ∧ bw_err b = None)) as [[Hfit Herr]|Hs];
    [|by rewrite !bufio_Write_loop_settled].
  destruct (decide (Buffered b = 0)) as [Hempty|Hfull].
  { by rewrite (bufio_Write_loop_through (S (S k)) b), (bufio_Write_loop_through 2 b). }
  rewrite (bufio_Write_loop_fill (S (S k)) b), (bufio_Write_loop_fill 2 b) by done.
  set (filled := {| bw_err := bw_err b; bw_buf := bw_buf b ++ take (Available b) p;
                    bw_size := bw_size b; bw_wr := bw_wr b |}).
  pose proof (bufio_Flush_inv filled) as Hinv.
  destruct (bufio_Flush filled) as [b2 err2]. cbn [fst].
  set (p2 := drop (Available b) p).
  destruct (decide (Available b2 < length p2 ∧ bw_err b2 = None)) as [[Hfit2 Herr2]|Hs2];
    [|by rewrite !bufio_Write_loop_settled].
  assert (Buffered b2 = 0) as Hempty2.
  { destruct err2 as [e|]; [|by destruct Hinv as (_ & ? & _)].
    destruct Hinv as [He _]. congruence. }
  by rewrite (bufio_Write_loop_through (S k) b2), (bufio_Write_loop_through 1 b2).
Qed.

Lemma bufio_Flush_healthy b :
  bw_err b = None → room (bw_wr b) = None →
  bufio_Flush b
  = ({| bw_err := None; bw_buf := []; bw_size := bw_size b;
        bw_wr := {| wire := wire (bw_wr b) ++ bw_buf b; room := None |} |}, None).
Proof.
  intros Herr Hroom. unfold bufio_Flush. rewrite Herr.
  case_decide as Hempty.
  - destruct b as [err buf size [w rm]]. unfold Buffered in Hempty. cbn in *.
    apply nil_length_inv in Hempty. subst. by rewrite app_nil_r.
  - rewrite pipe_Write_open by done. fold (Buffered b).
    rewrite decide_False by lia. done.
Qed.

Lemma bufio_Write_loop_healthy fuel b p nn :
  bw_err b = None → room (bw_wr b) = None →
  match bufio_Write_loop fuel b p nn with
  | (b', p', nn') =>
      bw_err b' = None ∧ room (bw_wr b') = None ∧ bw_size b' = bw_size b ∧
      wire (bw_wr b') ++ bw_buf b' ++ p' = wire (bw_wr b) ++ bw_buf b ++ p ∧
      nn' + length p' = nn + length p
  end.
Proof.
  revert b p nn. induction fuel as [|fuel IH]; intros b p nn Herr Hroom; [done|].
  cbn [bufio_Write_loop]. case_decide as Hcond; [|done]. destruct Hcond as [Hfit _].
  case_decide as Hempty.
  - rewrite pipe_Write_open by done.
    match goal with |- context [bufio_Write_loop fuel ?b1 ?p1 ?n1] =>
      specialize (IH b1 p1 n1 eq_refl eq_refl);
      destruct (bufio_Write_loop fuel b1 p1 n1) as [[b' p'] nn'] end.
    cbn in IH. destruct IH as (? & ? & ? & Hw & Hn).
    rewrite drop_all in Hw, Hn. apply nil_length_inv in Hempty.
    rewrite Hempty in *. cbn in *. rewrite app_nil_r in Hw.
    repeat split; try done; lia.
  - set (filled := {| bw_err := bw_err b; bw_buf := bw_buf b ++ take (Available b) p;
                      bw_size := bw_size b; bw_wr := bw_wr b |}).
    rewrite (bufio_Flush_healthy filled) by done. cbn [fst].
    match goal with |- context [bufio_Write_loop fuel ?b1 ?p1 ?n1] =>
      specialize (IH b1 p1 n1 eq_refl eq_refl);
      destruct (bufio_Write_loop fuel b1 p1 n1) as [[b' p'] nn'] end.
    cbn in IH. destruct IH as (? & ? & ? & Hw & Hn).
    rewrite length_drop in Hn.
    repeat split; try done; [|lia].
    rewrite Hw, <- !app_assoc. by rewrite take_drop.
Qed.

(** A writer without error over a pipe that is being read accepts the
    data: all of it is on the wire or in the buffer, in order. *)
Lemma bufio_Write_healthy b p :
  bw_err b = None → room (bw_wr b) = None →
  ∃ b', bufio_Write b p = (b', (length p, None)) ∧
        bw_err b' = None ∧ room (bw_wr b') = None ∧ bw_size b' = bw_size b ∧
        wire (bw_wr b') ++ bw_buf b' = wire (bw_wr b) ++ bw_buf b ++ p.
Proof.
  intros Herr Hroom. unfold bufio_Write.
  pose proof (bufio_Write_loop_healthy 3 b p 0 Herr Hroom) as Hloop.
  destruct (bufio_Write_loop 3 b p 0) as [[b' p'] nn'].
  destruct Hloop as (Herr' & Hroom' & Hsize & Hw & Hn). rewrite Herr'.
  eexists. split; [by rewrite Hn|]. cbn. by rewrite app_assoc in Hw |- *.
Qed.

End Bufio.

(** ** The writer's loop *)

Section WriterProofs.
Context {F : Type} `{!OS F}.
Implicit Types (p : Process F) (c : nat) (b : bufioWriter).

Lemma loggedWrite_ok {W} `{!BufWriter W} (writer writer' : W) (data : list byte) n p :
  Write writer data = (writer', (n, None)) → loggedWrite writer data p = (Ret writer', p).
Proof. intros Hw. unfold loggedWrite. by rewrite Hw. Qed.

(** [os.Exit(1)] comes first: the record after it is never written. *)
Lemma loggedWrite_error {W} `{!BufWriter W} (writer writer' : W) (data : list byte) n e p :
  Write writer data = (writer', (n, Some e)) → loggedWrite writer data p = (Halt (Exit 1), p).
Proof. intros Hw. unfold loggedWrite. by rewrite Hw. Qed.

Lemma loggedWrite_inv {W} `{!BufWriter W} (writer : W) (data : list byte) p :
  match loggedWrite writer data p with
  | (Ret _, p') => p' = p
  | (Halt s, p') => s = Exit 1 ∧ p' = p
  end.
Proof.
  unfold loggedWrite. by destruct (Write writer data) as [w [n [e|]]].
Qed.

Lemma writeFrame_inv {W} `{!BufWriter W} (writer : W) (data : slice) p :
  match writeFrame writer data p with
  | (Ret _, p') => p' = p
  | (Halt s, p') => s = Exit 1 ∧ p' = p
  end.
Proof.
  unfold writeFrame. rewrite bind_unfold.
  pose proof (loggedWrite_inv writer (PutUint64 (uint64 (Z.of_nat (len data)))) p) as H1.
  destruct (loggedWrite writer _ p) as [[w1|s] p1]; [subst p1|done].
  rewrite bind_unfold.
  pose proof (loggedWrite_inv w1 (slice_bytes data) p) as H2.
  by destruct (loggedWrite w1 _ p) as [[w2|s] p2].
Qed.

Lemma receive_next c p ch (m : slice) rest :
  chans p !! c = Some ch → ch_buf ch = m :: rest →
  receive c p = (Ret (Some m), drained p c ch 1).
Proof.
  intros Hc Hbuf. unfold receive, drained. by rewrite Hc, Hbuf.
Qed.

Lemma receive_end c p ch :
  chans p !! c = Some ch → ch_buf ch = [] →
  receive c p = if ch_closed ch then (Ret None, p) else (Halt (Blocked OnReceive), p).
Proof. intros Hc Hbuf. unfold receive. by rewrite Hc, Hbuf. Qed.

Lemma drained_lookup p c ch n :
  chans (drained p c ch n) !! c
  = Some {| ch_cap := ch_cap ch; ch_buf := drop n (ch_buf ch); ch_closed := ch_closed ch |}.
Proof. unfold drained. cbn. by rewrite lookup_insert_eq. Qed.

Lemma drained_drained p c ch ch' n n' :
  ch_cap ch' = ch_cap ch → ch_buf ch' = drop n (ch_buf ch) → ch_closed ch' = ch_closed ch →
  drained (drained p c ch n) c ch' n' = drained p c ch (n + n').
Proof.
  intros Hcap Hbuf Hcl. unfold drained, set_chans. cbn.
  by rewrite insert_insert_eq, Hcap, Hbuf, Hcl, drop_drop.
Qed.

Lemma drained_0 p c ch : chans p !! c = Some ch → drained p c ch 0 = p.
Proof.
  intros Hc. unfold drained, set_chans. rewrite drop_0.
  destruct ch. cbn. rewrite insert_id by done. by destruct p.
Qed.

Lemma pending_drained p c ch n : pending c (drained p c ch n) = drop n (ch_buf ch).
Proof. unfold pending. by rewrite drained_lookup. Qed.

Lemma writerLoop_S {W} `{!BufWriter W} fuel (writer : W) c p :
  writerLoop (S fuel) writer c p
  = match receive c p with
    | (Ret (Some data), p') =>
        match writeFrame writer data p' with
        | (Ret writer', p'') => writerLoop fuel writer' c p''
        | (Halt s, p'') => (Halt s, p'')
        end
    | (Ret None, p') => (Ret writer, p')
    | (Halt s, p') => (Halt s, p')
    end.
Proof.
  cbn [writerLoop]. rewrite bind_unfold.
  destruct (receive c p) as [[[data|]|s] p']; [|done|done].
  by rewrite bind_unfold.
Qed.

(** A frame written through a healthy writer with an empty buffer is on
    the wire when [writeFrame] is done. *)
Lemma writeFrame_healthy b (data : slice) p :
  bw_err b = None → room (bw_wr b) = None → bw_buf b = [] →
  writeFrame b data p
  = (Ret {| bw_err := None; bw_buf := []; bw_size := bw_size b;
            bw_wr := {| wire := wire (bw_wr b) ++ frameBytes data; room := None |} |}, p).
Proof.
  intros Herr Hroom Hbuf. unfold writeFrame.
  destruct (bufio_Write_healthy b (PutUint64 (uint64 (Z.of_nat (len data)))) Herr Hroom)
    as (b1 & Hw1 & Herr1 & Hroom1 & Hsize1 & Hwire1).
  destruct (bufio_Write_healthy b1 (slice_bytes data) Herr1 Hroom1)
    as (b2 & Hw2 & Herr2 & Hroom2 & Hsize2 & Hwire2).
  rewrite bind_unfold, (loggedWrite_ok (BufWriter0:=bufioWriter_BufWriter) b b1 _ _ p Hw1).
  rewrite bind_unfold, (loggedWrite_ok (BufWriter0:=bufioWriter_BufWriter) b1 b2 _ _ p Hw2).
  change (Flush b2) with (bufio_Flush b2).
  rewrite bufio_Flush_healthy by done. cbn.
  rewrite Hwire2, app_assoc, Hwire1, Hbuf, Hsize2, Hsize1. unfold frameBytes.
  by rewrite !app_nil_l, <- !app_assoc.
Qed.

(** The writer's loop puts the frames of the queued messages on the wire in
    the order of the queue. *)
Lemma writerLoop_healthy (msgs : list slice) c ch b p fuel :
  bw_err b = None → room (bw_wr b) = None → bw_buf b = [] →
  chans p !! c = Some ch → ch_buf ch = msgs → length msgs < fuel →
  writerLoop fuel b c p
  = (if ch_closed ch then
       Ret {| bw_err := None; bw_buf := []; bw_size := bw_size b;
              bw_wr := {| wire := wire (bw_wr b) ++ concat (map frameBytes msgs);
                          room := None |} |}
     else Halt (Blocked OnReceive),
     drained p c ch (length msgs)).
Proof.
  revert c ch b p fuel. induction msgs as [|m msgs IH];
    intros c ch b p fuel Herr Hroom Hbuf Hc Hmsgs Hfuel;
    (destruct fuel as [|fuel]; [cbn in Hfuel; lia|]); rewrite writerLoop_S.
  - rewrite (receive_end _ _ _ Hc Hmsgs), drained_0 by done.
    destruct (ch_closed ch); [|done]. cbn. rewrite app_nil_r.
    destruct b as [? ? ? [? ?]]. cbn in *. by subst.
  - rewrite (receive_next _ _ _ _ _ Hc Hmsgs), writeFrame_healthy by done.
    rewrite (IH c {| ch_cap := ch_cap ch; ch_buf := drop 1 (ch_buf ch);
                     ch_closed := ch_closed ch |});
      [|done|done|done|apply drained_lookup|by rewrite Hmsgs|cbn in Hfuel; lia].
    cbn. rewrite drained_drained by done. by rewrite <- app_assoc.
Qed.

Lemma receive_inv c p :
  match receive c p with
  | (Ret (Some _), p') => S (length (pending c p')) = length (pending c p)
  | (Ret None, p') => p' = p
  | (Halt s, p') => s ≠ OutOfFuel ∧ p' = p
  end.
Proof.
  unfold receive, pending. destruct (chans p !! c) as [ch|] eqn:Hc; [|done].
  destruct (ch_buf ch) as [|m rest] eqn:Hbuf.
  - by destruct (ch_closed ch).
  - cbn. by rewrite lookup_insert_eq.
Qed.

(** The step bound of the writer's loop is never reached either. *)
Lemma writerLoop_fuel {W} `{!BufWriter W} (fuel : nat) (writer : W) c p :
  length (pending c p) < fuel →
  (writerLoop fuel writer c p).1 ≠ Halt OutOfFuel ∧
  ∀ more, fuel ≤ more → writerLoop more writer c p = writerLoop fuel writer c p.
Proof.
  revert writer p. induction fuel as [|fuel IH]; intros writer p Hlen; [lia|].
  pose proof (receive_inv c p) as Hrecv.
  split.
  - rewrite writerLoop_S. destruct (receive c p) as [[[data|]|s] p'].
    + pose proof (writeFrame_inv writer data p') as Hframe.
      destruct (writeFrame writer data p') as [[w|s] p''].
      * subst p''. apply IH. lia.
      * cbn. destruct Hframe as [-> _]. done.
    + done.
    + cbn. destruct Hrecv. congruence.
  - intros [|more] Hmore; [lia|]. rewrite !writerLoop_S.
    destruct (receive c p) as [[[data|]|s] p']; [|done|done].
    pose proof (writeFrame_inv writer data p') as Hframe.
    destruct (writeFrame writer data p') as [[w|s] p'']; [|done].
    subst p''. apply IH; lia.
Qed.

End WriterProofs.

(** ** Creating the pipe and starting the loops *)

Section Lifecycle.
Context {F : Type} `{!OS F}.
Implicit Types (p : Process F) (pipePath : string).

Lemma doesFileExist_eq pipePath p :
  doesFileExist pipePath p
  = (Ret (negb (IsNotExist (os_Stat (fs p) pipePath))), record p (fs p) (SysStat pipePath)).
Proof. reflexivity. Qed.

Lemma IsNotExist_other (e : error) : e ≠ Errno ENOENT → IsNotExist (Some e) = false.
Proof. intros Hne. by destruct e as [[]| | | | |]. Qed.

Lemma OpenPipeReader_eq pipePath (pipeData : nat) p :
  OpenPipeReader pipePath pipeData p
  = let checked := record p (fs p) (SysStat pipePath) in
    if IsNotExist (os_Stat (fs p) pipePath)
    then (Ret (Some (ErrorString "File doesn't exitst")), checked)
    else
      let pipeChannel := fresh (dom (chans p)) in
      (Ret None,
       (go (ReaderTask pipePath pipeChannel) (make_chan 10 checked).2).2).
Proof.
  unfold OpenPipeReader. rewrite bind_unfold, doesFileExist_eq.
  by destruct (IsNotExist _).
Qed.

Lemma OpenPipeWriter_eq pipePath (pipeInput : nat) p :
  OpenPipeWriter pipePath pipeInput p
  = let checked := record p (fs p) (SysStat pipePath) in
    if IsNotExist (os_Stat (fs p) pipePath)
    then (Ret (Some (ErrorString "File doesn't exitst")), checked)
    else (Ret None, (go (WriterTask pipePath pipeInput) checked).2).
Proof.
  unfold OpenPipeWriter. rewrite bind_unfold, doesFileExist_eq.
  by destruct (IsNotExist _).
Qed.

Lemma CreatePipe_eq pipePath p :
  CreatePipe pipePath p
  = let checked := record p (fs p) (SysStat pipePath) in
    if IsNotExist (os_Stat (fs p) pipePath)
    then
      let '(f', mkfifoErr) := syscall_Mkfifo (fs p) pipePath 511 in
      (Ret mkfifoErr, record checked f' (SysMkfifo pipePath 511))
    else
      let '(f, removeErr) := os_Remove (fs p) pipePath in
      let removed := record checked f (SysRemove pipePath) in
      match removeErr with
      | Some err => (Ret (Some err), removed)
      | None =>
          let '(f', mkfifoErr) := syscall_Mkfifo f pipePath 511 in
          (Ret mkfifoErr, record removed f' (SysMkfifo pipePath 511))
      end.
Proof.
  unfold CreatePipe. rewrite bind_unfold, doesFileExist_eq. cbv zeta.
  destruct (IsNotExist _); cbn [negb]; rewrite bind_unfold.
  - cbn. unfold Mkfifo. cbn [fs record]. by destruct (syscall_Mkfifo _ _ _).
  - unfold Remove at 1. cbn [fs record].
    destruct (os_Remove _ _) as [f [err|]]; [done|].
    unfold Mkfifo. cbn [fs record]. by destruct (syscall_Mkfifo _ _ _).
Qed.

(** C6, as amended.  When [os.Stat] reports that nothing is at the path,
    [OpenPipeReader] and [OpenPipeWriter] return the not-found error at
    once: the only thing that happened is the [stat] call, no goroutine was
    started and no channel made.  Otherwise they return nil and have
    started exactly one goroutine, the loop's. *)
Theorem not_found_guard pipePath (queue : nat) p :
  let checked := record p (fs p) (SysStat pipePath) in
  let notFound := Some (ErrorString "File doesn't exitst") in
  (IsNotExist (os_Stat (fs p) pipePath) = true →
     OpenPipeReader pipePath queue p = (Ret notFound, checked) ∧
     OpenPipeWriter pipePath queue p = (Ret notFound, checked) ∧
     goroutines checked = goroutines p ∧ chans checked = chans p) ∧
  (IsNotExist (os_Stat (fs p) pipePath) = false →
     (∃ pipeChannel p',
        OpenPipeReader pipePath queue p = (Ret None, p') ∧
        goroutines p' = goroutines p ++ [ReaderTask pipePath pipeChannel]) ∧
     (∃ p',
        OpenPipeWriter pipePath queue p = (Ret None, p') ∧
        goroutines p' = goroutines p ++ [WriterTask pipePath queue])).
Proof.
  cbv zeta. rewrite OpenPipeReader_eq, OpenPipeWriter_eq. cbv zeta.
  split; intros ->; [done|].
  split; eexists; [eexists|]; split; reflexivity.
Qed.

(** C7, as amended.  [CreatePipe] when the existence check ([os.Stat] does
    not report non-existence) finds an entry: it calls
    [remove] first; a failed removal is returned as it is, after exactly
    the calls [stat] and [remove] (no [mkfifo], no second [remove]).  After
    a successful removal, or when the check found nothing, it calls
    [mkfifo] once with mode 0777 and returns what [mkfifo] returned. *)
Theorem CreatePipe_removes_then_creates pipePath p :
  let checked := record p (fs p) (SysStat pipePath) in
  (IsNotExist (os_Stat (fs p) pipePath) = false →
     ∀ f removeErr, os_Remove (fs p) pipePath = (f, removeErr) →
       let removed := record checked f (SysRemove pipePath) in
       match removeErr with
       | Some err =>
           CreatePipe pipePath p = (Ret (Some err), removed) ∧
           syscalls removed = syscalls p ++ [SysStat pipePath; SysRemove pipePath]
       | None =>
           ∀ f' mkfifoErr, syscall_Mkfifo f pipePath 511 = (f', mkfifoErr) →
             CreatePipe pipePath p
             = (Ret mkfifoErr, record removed f' (SysMkfifo pipePath 511))
       end) ∧
  (IsNotExist (os_Stat (fs p) pipePath) = true →
     ∀ f' mkfifoErr, syscall_Mkfifo (fs p) pipePath 511 = (f', mkfifoErr) →
       CreatePipe pipePath p
       = (Ret mkfifoErr, record checked f' (SysMkfifo pipePath 511))).
Proof.
  cbv zeta. rewrite CreatePipe_eq. cbv zeta.
  split; intros ->.
  - intros f [err|] ->.
    + split; [done|]. cbn. by rewrite <- app_assoc.
    + by intros f' mkfifoErr ->.
  - by intros f' mkfifoErr ->.
Qed.

(** C10.  An error of [os.Stat] other than non-existence makes
    [doesFileExist] answer [true]: [OpenPipeReader] and [OpenPipeWriter]
    return nil and start their goroutine, and the second call of
    [CreatePipe] is [remove]. *)
Theorem stat_error_counts_as_existing pipePath (queue : nat) p (e : error) :
  os_Stat (fs p) pipePath = Some e → e ≠ Errno ENOENT →
  doesFileExist pipePath p = (Ret true, record p (fs p) (SysStat pipePath)) ∧
  (∃ pipeChannel p',
     OpenPipeReader pipePath queue p = (Ret None, p') ∧
     goroutines p' = goroutines p ++ [ReaderTask pipePath pipeChannel]) ∧
  (∃ p',
     OpenPipeWriter pipePath queue p = (Ret None, p') ∧
     goroutines p' = goroutines p ++ [WriterTask pipePath queue]) ∧
  (∃ result p' more,
     CreatePipe pipePath p = (result, p') ∧
     syscalls p' = syscalls p ++ SysStat pipePath :: SysRemove pipePath :: more).
Proof.
  intros Hstat Hne. pose proof (IsNotExist_other e Hne) as Hexists.
  rewrite doesFileExist_eq, OpenPipeReader_eq, OpenPipeWriter_eq, CreatePipe_eq.
  cbv zeta. rewrite Hstat, Hexists.
  split; [done|]. split; [by eexists _, _|]. split; [by eexists|].
  destruct (os_Remove (fs p) pipePath) as [f [err|]].
  - eexists _, _, []. split; [done|]. cbn. by rewrite <- app_assoc.
  - destruct (syscall_Mkfifo f pipePath 511) as [f' mkfifoErr].
    eexists _, _, [_]. split; [done|]. cbn. by rewrite <- !app_assoc.
Qed.

End Lifecycle.

(** On the file system [posix], a [CreatePipe] that returns nil has left a
    named pipe at the path, with the bits of mode 0777 that the umask
    allows. *)
Lemma CreatePipe_posix_creates (pipePath : string) (p p' : Process posix) :
  CreatePipe pipePath p = (Ret None, p') →
  nodes (fs p') !! pipePath = Some (NamedPipe (Z.land 511 (Z.lnot (umask (fs p))))).
Proof.
  rewrite CreatePipe_eq. cbv zeta. cbn [os_Stat os_Remove syscall_Mkfifo posix_OS].
  assert (∀ f f' err, posix_Mkfifo f pipePath 511 = (f', err) → err = None →
            nodes f' !! pipePath = Some (NamedPipe (Z.land 511 (Z.lnot (umask f)))))
    as Hmk.
  { intros f f' err. unfold posix_Mkfifo.
    case_decide; [by intros [= <- <-]|].
    destruct (nodes f !! pipePath); [by intros [= <- <-]|].
    destruct (readonly f); [by intros [= <- <-]|].
    intros [= <- <-] _. cbn. by rewrite lookup_insert_eq. }
  assert (∀ f f', posix_Remove f pipePath = (f', None) → umask f' = umask f) as Hrm.
  { intros f f'. unfold posix_Remove.
    case_decide; [by intros [= <-]|].
    destruct (readonly f); [by intros [= <-]|].
    destruct (nodes f !! pipePath) as [[|[]|]|]; by intros [= <-]. }
  destruct (IsNotExist _).
  - destruct (posix_Mkfifo (fs p) pipePath 511) as [f' err] eqn:Hf.
    intros [= -> <-]. cbn. by eapply Hmk.
  - destruct (posix_Remove (fs p) pipePath) as [f [err|]] eqn:Hr; [done|].
    destruct (posix_Mkfifo f pipePath 511) as [f' err] eqn:Hf.
    intros [= -> <-]. cbn. rewrite <- (Hrm _ _ Hr). by eapply Hmk.
Qed.

(** ** Frames *)

Section Framing.
Context {F : Type} `{!OS F}.
Implicit Types (p : Process F) (c : nat) (b : bufioWriter) (pipePath : string).

(** C2.  Round trip.  A payload shorter than 2^64 bytes, written by the
    body of the writer's loop through a healthy writer, is on the wire as
    its frame; the body of the reader's loop, run on that frame, yields the
    payload, byte for byte and of the same length, logs nothing and leaves
    the bytes after the frame.  This includes the empty payload. *)
Theorem frame_round_trip (data : slice) b (rest : list byte) (tl : Tail) p :
  bw_err b = None → room (bw_wr b) = None → bw_buf b = [] →
  (Z.of_nat (len data) < 2 ^ 64)%Z →
  ∃ b',
    writeFrame b data p = (Ret b', p) ∧
    wire (bw_wr b') = wire (bw_wr b) ++ frameBytes data ∧
    readFrame {| r_data := frameBytes data ++ rest; r_tail := tl |} p
    = (Ret (Some (slice_bytes data), {| r_data := rest; r_tail := tl |}), p) ∧
    len (Some (slice_bytes data)) = len data.
Proof.
  intros Herr Hroom Hbuf Hlen. eexists. split; [by apply writeFrame_healthy|].
  split; [done|]. split; [by apply readFrame_frameBytes|done].
Qed.

(** C9.  Wire format.  The writer emits eight bytes whose little-endian
    value is the length of the payload, then the payload.  The reader takes
    the first eight bytes, reads them as a little-endian number, then takes
    exactly that many bytes as the payload and leaves what follows. *)
Theorem wire_format (data : slice) b (prefix payload rest : list byte) (tl : Tail) p :
  bw_err b = None → room (bw_wr b) = None → bw_buf b = [] →
  (Z.of_nat (len data) < 2 ^ 64)%Z →
  length prefix = 8 → Z.of_nat (length payload) = le_value prefix →
  (∃ b' sizeBytes,
     writeFrame b data p = (Ret b', p) ∧
     wire (bw_wr b') = wire (bw_wr b) ++ sizeBytes ++ slice_bytes data ∧
     length sizeBytes = 8 ∧ le_value sizeBytes = Z.of_nat (len data)) ∧
  readFrame {| r_data := prefix ++ payload ++ rest; r_tail := tl |} p
  = (Ret (Some payload, {| r_data := rest; r_tail := tl |}), p).
Proof.
  intros Herr Hroom Hbuf Hlen Hprefix Hpayload. split.
  - eexists _, (PutUint64 (uint64 (Z.of_nat (len data)))).
    split; [by apply writeFrame_healthy|]. split; [done|]. split; [done|].
    rewrite le_value_PutUint64, !(uint64_small (Z.of_nat (len data))); lia.
  - rewrite readFrame_prefix by done. apply loggedRead_enough. lia.
Qed.


Lemma readerGoroutine_eq pipePath c (opened : error + Reader) p :
  readerGoroutine pipePath c opened p
  = let p1 := record (go SignalTask p).2 (fs p) (SysOpenFile pipePath O_RDONLY 511) in
    match opened with
    | inl fileErr => readerLoop 1 nilFileReader c (logged p1 (CannotOpenForReading fileErr))
    | inr pipe => readerLoop (S (length (r_data pipe))) pipe c p1
    end.
Proof. by destruct opened. Qed.

(** The caller's queue is not the channel the reader's goroutine sends on:
    whatever arrives on the pipe, the queue stays as it was. *)
Lemma OpenPipeReader_keeps_caller_queue pipePath (pipeData : nat) p p' opened :
  is_Some (chans p !! pipeData) →
  OpenPipeReader pipePath pipeData p = (Ret None, p') →
  ∃ pipeChannel,
    goroutines p' = goroutines p ++ [ReaderTask pipePath pipeChannel] ∧
    pipeChannel ≠ pipeData ∧
    chans (readerGoroutine pipePath pipeChannel opened p').2 !! pipeData
    = chans p !! pipeData.
Proof.
  intros Hin. rewrite OpenPipeReader_eq. cbv zeta.
  destruct (IsNotExist _); [done|]. intros [= <-].
  exists (fresh (dom (chans p))).
  assert (fresh (dom (chans p)) ≠ pipeData) as Hfresh.
  { intros Heq. apply (is_fresh (dom (chans p))). rewrite Heq. by apply elem_of_dom. }
  split; [done|]. split; [done|].
  rewrite readerGoroutine_eq. cbv zeta.
  destruct opened as [fileErr|pipe]; rewrite readerLoop_other_chan by done;
    cbn; by rewrite lookup_insert_ne.
Qed.

(** A stream that ends inside a length prefix stops the goroutine with a
    panic, after one log record; nothing is sent. *)
Lemma readerLoop_short_prefix_panics r c (fuel : nat) p :
  length (r_data r) < 8 → r_tail r ≠ Waiting →
  ∃ readErr,
    readerLoop (S fuel) r c p
    = (Halt (Panic "index out of range [7]"),
       logged p (ReadError readErr 8 (length (r_data r)))).
Proof.
  intros Hshort Htl. rewrite readerLoop_S.
  pose proof (readFrame_short_prefix r p Hshort) as Hs.
  destruct (r_tail r); [| |done]; destruct Hs as [readErr ->]; by exists readErr.
Qed.

(** When its channel is full, the loop blocks with the next frame in hand. *)
Lemma readerLoop_blocks_when_full (data : slice) (rest : list byte) tl c ch (fuel : nat) p :
  (Z.of_nat (len data) < 2 ^ 64)%Z →
  chans p !! c = Some ch → ch_closed ch = false → ch_cap ch ≤ length (ch_buf ch) →
  readerLoop (S fuel) {| r_data := frameBytes data ++ rest; r_tail := tl |} c p
  = (Halt (Blocked OnSend), p).
Proof.
  intros Hlen Hc Hopen Hfull.
  by rewrite readerLoop_S, readFrame_frameBytes, (send_full _ _ _ ch).
Qed.

Lemma readerLoop_halts (fuel : nat) r c p : ∃ s, (readerLoop fuel r c p).1 = Halt s.
Proof.
  revert r p. induction fuel as [|fuel IH]; intros r p; [by eexists|].
  rewrite readerLoop_S. destruct (readFrame r p) as [[[m r']|s] p']; [|by eexists].
  destruct (send c m p') as [[[]|s] p'']; [apply IH|by eexists].
Qed.

(** The goroutine of the reader never returns: it ends in a panic or on an
    operation that blocks, and the step bound is not what stops it. *)
Lemma readerGoroutine_stops pipePath c (opened : error + Reader) p :
  ∃ s, (readerGoroutine pipePath c opened p).1 = Halt s ∧ s ≠ OutOfFuel.
Proof.
  rewrite readerGoroutine_eq. cbv zeta.
  destruct opened as [fileErr|pipe].
  - destruct (readerLoop_halts 1 nilFileReader c
                (logged (record (go SignalTask p).2 (fs p) (SysOpenFile pipePath O_RDONLY 511))
                   (CannotOpenForReading fileErr))) as [s Hs].
    exists s. split; [done|]. intros ->. revert Hs.
    apply readerLoop_fuel. cbn. lia.
  - destruct (readerLoop_halts (S (length (r_data pipe))) pipe c
                (record (go SignalTask p).2 (fs p) (SysOpenFile pipePath O_RDONLY 511)))
      as [s Hs].
    exists s. split; [done|]. intros ->. revert Hs.
    apply readerLoop_fuel. lia.
Qed.

(** With more frames on the wire than its channel has room for, the loop
    keeps the first ones and blocks on the next. *)
Lemma readerLoop_blocks_after_capacity (first : list slice) (next : slice)
    (rest : list byte) tl c ch (fuel : nat) p :
  Forall (λ m, (Z.of_nat (len m) < 2 ^ 64)%Z) first → (Z.of_nat (len next) < 2 ^ 64)%Z →
  chans p !! c = Some ch → ch_closed ch = false →
  length (ch_buf ch) + length first = ch_cap ch →
  readerLoop (length first + S fuel)
    {| r_data := concat (map frameBytes (first ++ [next])) ++ rest; r_tail := tl |} c p
  = (Halt (Blocked OnSend), buffered p c ch (map (λ m, Some (slice_bytes m)) first)).
Proof.
  intros Hfirst Hnext Hc Hopen Hcap.
  rewrite map_app, concat_app, <- app_assoc. cbn [map concat]. rewrite app_nil_r.
  rewrite (readerLoop_frames first _ tl c (S fuel) p ch) by (done || lia).
  apply (readerLoop_blocks_when_full next rest tl c
           {| ch_cap := ch_cap ch;
              ch_buf := ch_buf ch ++ map (λ m, Some (slice_bytes m)) first;
              ch_closed := false |}); [done|apply buffered_lookup|done|].
  cbn. rewrite length_app, length_map. lia.
Qed.

End Framing.

(** ** The scenarios on the code *)

(** C1.  Scenario A on the code.  The reader is started on the caller's
    queue, the frame of [01 02 03] arrives and the pipe stays open.  The
    goroutine decodes the message and puts it on the channel it made
    itself; the caller's queue is still empty when the goroutine waits for
    the next frame. *)
Theorem reader_sends_on_its_own_channel :
  OpenPipeReader testPipe callerQueue (started withPipe 10 [] false)
  = (Ret None, readerStarted) ∧
  goroutines readerStarted = [ReaderTask testPipe pipeChannel] ∧
  pipeChannel ≠ callerQueue ∧
  let run := readerGoroutine testPipe pipeChannel
               (inr {| r_data := frameBytes payloadA; r_tail := Waiting |}) readerStarted in
  run.1 = Halt (Blocked OnRead) ∧
  pending pipeChannel run.2 = [payloadA] ∧
  pending callerQueue run.2 = [].
Proof. vm_compute. repeat split; done. Qed.

(** C4.  The peer closes the pipe.  With nothing left to read, the read of
    the length prefix fails, [loggedRead] logs it and returns nil, and
    [Uint64] panics on the nil slice: no nil message is delivered and the
    loop does not go on.  The same happens one turn after a payload was cut
    short. *)
Theorem closed_pipe_panics_reader :
  let closed := readerGoroutine testPipe pipeChannel
                  (inr {| r_data := []; r_tail := AtEOF |}) readerStarted in
  let cut := readerGoroutine testPipe pipeChannel
               (inr {| r_data := PutUint64 5 ++ [Byte.x01; Byte.x02]; r_tail := AtEOF |})
               readerStarted in
  (closed.1 = Halt (Panic "index out of range [7]") ∧
   glog closed.2 = [ReadError EOF 8 0] ∧
   pending pipeChannel closed.2 = []) ∧
  (cut.1 = Halt (Panic "index out of range [7]") ∧
   glog cut.2 = [ReadError ErrUnexpectedEOF 5 2; ReadError EOF 8 0] ∧
   pending pipeChannel cut.2 = [None]).
Proof. vm_compute. repeat split; done. Qed.

(** C5.  Eleven messages on the code.  The writer frames them in order;
    the reader decodes the first ten into its own channel, which nobody
    receives from, and blocks for ever on the send of the eleventh.  The
    caller's queue gets none of them. *)
Theorem eleventh_message_is_never_delivered :
  let written := writerGoroutine testPipe callerQueue nilFileWriter
                   (inr (NewWriter openPipe)) (started withPipe 11 elevenMessages true) in
  let onWire := concat (map frameBytes elevenMessages) in
  let run := readerGoroutine testPipe pipeChannel
               (inr {| r_data := onWire; r_tail := Waiting |}) readerStarted in
  written.1 = Ret {| bw_err := None; bw_buf := []; bw_size := defaultBufSize;
                     bw_wr := {| wire := onWire; room := None |} |} ∧
  run.1 = Halt (Blocked OnSend) ∧
  pending pipeChannel run.2 = take 10 elevenMessages ∧
  pending callerQueue run.2 = [].
Proof. vm_compute. repeat split; done. Qed.


(** Scenario B, the empty payload, as an instance of [frame_round_trip]. *)
Lemma frame_round_trip_witness :
  (bw_err (NewWriter openPipe) = None ∧ room (bw_wr (NewWriter openPipe)) = None ∧
   bw_buf (NewWriter openPipe) = [] ∧ (Z.of_nat (len (Some [])) < 2 ^ 64)%Z) ∧
  ∃ b',
    writeFrame (NewWriter openPipe) (Some []) readerStarted = (Ret b', readerStarted) ∧
    wire (bw_wr b') = wire (bw_wr (NewWriter openPipe)) ++ frameBytes (Some []) ∧
    readFrame {| r_data := frameBytes (Some []) ++ []; r_tail := AtEOF |} readerStarted
    = (Ret (Some (slice_bytes (Some [])), {| r_data := []; r_tail := AtEOF |}), readerStarted) ∧
    len (Some (slice_bytes (Some []))) = len (Some []).
Proof.
  split; [by vm_compute|].
  apply (frame_round_trip (Some []) (NewWriter openPipe) [] AtEOF readerStarted);
    by vm_compute.
Defined.

(** [wire_format] on the payload of scenario A, with one more byte on the
    wire after the frame. *)
Lemma wire_format_witness :
  (bw_err (NewWriter openPipe) = None ∧ room (bw_wr (NewWriter openPipe)) = None ∧
   bw_buf (NewWriter openPipe) = [] ∧ (Z.of_nat (len payloadA) < 2 ^ 64)%Z ∧
   length (PutUint64 3) = 8 ∧
   Z.of_nat (length [Byte.x01; Byte.x02; Byte.x03]) = le_value (PutUint64 3)) ∧
  (∃ b' sizeBytes,
     writeFrame (NewWriter openPipe) payloadA readerStarted = (Ret b', readerStarted) ∧
     wire (bw_wr b') = wire (bw_wr (NewWriter openPipe)) ++ sizeBytes ++ slice_bytes payloadA ∧
     length sizeBytes = 8 ∧ le_value sizeBytes = Z.of_nat (len payloadA)) ∧
  readFrame {| r_data := PutUint64 3 ++ [Byte.x01; Byte.x02; Byte.x03] ++ [Byte.xff];
               r_tail := Waiting |} readerStarted
  = (Ret (Some [Byte.x01; Byte.x02; Byte.x03], {| r_data := [Byte.xff]; r_tail := Waiting |}),
     readerStarted).
Proof.
  split; [by vm_compute|].
  apply (wire_format payloadA (NewWriter openPipe) (PutUint64 3)
           [Byte.x01; Byte.x02; Byte.x03] [Byte.xff] Waiting readerStarted);
    by vm_compute.
Defined.

(** [not_found_guard] where nothing is at the path. *)
Lemma not_found_guard_witness :
  let p := started emptyDisk 10 [] false in
  let checked := record p (fs p) (SysStat testPipe) in
  let notFound := Some (ErrorString "File doesn't exitst") in
  IsNotExist (os_Stat (fs p) testPipe) = true ∧
  OpenPipeReader testPipe callerQueue p = (Ret notFound, checked) ∧
  OpenPipeWriter testPipe callerQueue p = (Ret notFound, checked) ∧
  goroutines checked = goroutines p ∧ chans checked = chans p.
Proof.
  cbv zeta. split; [by vm_compute|].
  apply (proj1 (not_found_guard testPipe callerQueue (started emptyDisk 10 [] false))).
  by vm_compute.
Defined.

(** [CreatePipe_removes_then_creates] on a read-only volume: the removal
    fails and no pipe is made. *)
Lemma CreatePipe_removes_then_creates_witness :
  let p := started readonlyDisk 10 [] false in
  let removed := record (record p (fs p) (SysStat testPipe)) readonlyDisk (SysRemove testPipe) in
  (IsNotExist (os_Stat (fs p) testPipe) = false ∧
   os_Remove (fs p) testPipe = (readonlyDisk, Some (Errno EROFS))) ∧
  CreatePipe testPipe p = (Ret (Some (Errno EROFS)), removed) ∧
  syscalls removed = syscalls p ++ [SysStat testPipe; SysRemove testPipe].
Proof.
  cbv zeta. split; [by vm_compute|].
  apply (proj1 (CreatePipe_removes_then_creates testPipe (started readonlyDisk 10 [] false))
           ltac:(by vm_compute) readonlyDisk (Some (Errno EROFS)) ltac:(by vm_compute)).
Defined.


(** [stat_error_counts_as_existing] below a directory that may not be
    searched. *)
Lemma stat_error_counts_as_existing_witness :
  let p := started lockedDirectory 10 [] false in
  (os_Stat (fs p) testPipe = Some (Errno EACCES) ∧ Errno EACCES ≠ Errno ENOENT) ∧
  doesFileExist testPipe p = (Ret true, record p (fs p) (SysStat testPipe)) ∧
  (∃ pipeChannel p',
     OpenPipeReader testPipe callerQueue p = (Ret None, p') ∧
     goroutines p' = goroutines p ++ [ReaderTask testPipe pipeChannel]) ∧
  (∃ p',
     OpenPipeWriter testPipe callerQueue p = (Ret None, p') ∧
     goroutines p' = goroutines p ++ [WriterTask testPipe callerQueue]) ∧
  (∃ result p' more,
     CreatePipe testPipe p = (result, p') ∧
     syscalls p' = syscalls p ++ SysStat testPipe :: SysRemove testPipe :: more).
Proof.
  cbv zeta. split; [by vm_compute|].
  apply (stat_error_counts_as_existing testPipe callerQueue
           (started lockedDirectory 10 [] false) (Errno EACCES)); by vm_compute.
Defined.

(** * Further properties of the code *)

(** ** Further properties: the length prefix *)

Section MoreCodec.
Local Open Scope Z_scope.

(** X1.  [PutUint64] and [Uint64] are inverse to each other: a number
    written and read back is the number modulo 2^64, and any eight bytes
    read as a number below 2^64 that [PutUint64] writes as the same eight
    bytes. *)
Theorem Uint64_PutUint64_inverse (bs rest : list byte) (v : Z) :
  length bs = 8%nat →
  Uint64 (PutUint64 v ++ rest) = Some (uint64 v) ∧
  ∃ n, Uint64 (bs ++ rest) = Some n ∧ 0 ≤ n < 2 ^ 64 ∧ PutUint64 n = bs.
Proof.
  intros Hlen. split; [apply Uint64_PutUint64|].
  exists (le_value bs). split; [by apply Uint64_le_value|]. split.
  - pose proof (le_value_bound bs) as Hb. rewrite Hlen in Hb. exact Hb.
  - rewrite PutUint64_le_split, le_value_le_combine, <- Hlen. apply split_le_combine.
Qed.

Lemma Uint64_long (b : list byte) :
  (8 ≤ length b)%nat → Uint64 b = Some (le_value (take 8 b)).
Proof.
  intros Hlen. rewrite <- (take_drop 8 b) at 1. apply Uint64_le_value.
  rewrite length_take. lia.
Qed.

(** X2.  [Uint64] panics exactly on slices shorter than eight bytes; on
    longer ones it reads the first eight bytes and nothing else. *)
Theorem Uint64_reads_eight_bytes_or_panics (b : list byte) :
  Uint64 b = if decide (length b < 8)%nat then None else Some (le_value (take 8 b)).
Proof.
  case_decide as Hlen; [by apply Uint64_short|]. apply Uint64_long. lia.
Qed.

Lemma length_frameBytes (data : slice) : length (frameBytes data) = (8 + len data)%nat.
Proof. unfold frameBytes. by rewrite length_app. Qed.

(** X3.  Framing is injective: two lists of messages (each shorter than
    2^64 bytes) with the same bytes on the wire have the same payloads, in
    the same order.  Frames are neither merged nor split. *)
Theorem framing_is_injective (msgs msgs' : list slice) :
  Forall (λ m, Z.of_nat (len m) < 2 ^ 64) msgs →
  Forall (λ m, Z.of_nat (len m) < 2 ^ 64) msgs' →
  concat (map frameBytes msgs) = concat (map frameBytes msgs') →
  map slice_bytes msgs = map slice_bytes msgs'.
Proof.
  intros Hall. revert msgs'.
  induction Hall as [|m msgs Hm _ IH]; intros msgs' Hall' Heq.
  - destruct msgs' as [|m' msgs']; [done|].
    apply (f_equal length) in Heq. cbn [map concat] in Heq.
    rewrite length_app, length_frameBytes in Heq. cbn [length] in Heq. lia.
  - destruct Hall' as [|m' msgs' Hm' Hall'].
    { apply (f_equal length) in Heq. cbn [map concat] in Heq.
      rewrite length_app, length_frameBytes in Heq. cbn [length] in Heq. lia. }
    cbn [map concat] in Heq. unfold frameBytes in Heq.
    rewrite <- !app_assoc in Heq.
    apply app_inj_1 in Heq as [Hprefix Heq]; [|done].
    apply (f_equal le_value) in Hprefix.
    rewrite !le_value_PutUint64, !(uint64_small (Z.of_nat (len m))),
      !(uint64_small (Z.of_nat (len m'))) in Hprefix by lia.
    apply app_inj_1 in Heq as [Hbytes Heq]; [|unfold len in Hprefix; lia].
    cbn [map]. rewrite Hbytes. f_equal. by apply IH.
Qed.

End MoreCodec.

Lemma Uint64_PutUint64_inverse_witness :
  length (PutUint64 259) = 8 ∧
  Uint64 (PutUint64 (2 ^ 64 + 3) ++ [Byte.xff]) = Some (uint64 (2 ^ 64 + 3)) ∧
  ∃ n, Uint64 (PutUint64 259 ++ [Byte.xff]) = Some n ∧ (0 ≤ n < 2 ^ 64)%Z ∧
       PutUint64 n = PutUint64 259.
Proof.
  split; [reflexivity|].
  apply (Uint64_PutUint64_inverse (PutUint64 259) [Byte.xff] (2 ^ 64 + 3)). reflexivity.
Defined.

Lemma framing_is_injective_witness :
  (Forall (λ m, (Z.of_nat (len m) < 2 ^ 64)%Z) [payloadA; None] ∧
   Forall (λ m, (Z.of_nat (len m) < 2 ^ 64)%Z) [payloadA; Some []] ∧
   concat (map frameBytes [payloadA; None]) = concat (map frameBytes [payloadA; Some []])) ∧
  map slice_bytes [payloadA; None] = map slice_bytes [payloadA; Some []].
Proof.
  assert (Forall (λ m, (Z.of_nat (len m) < 2 ^ 64)%Z) [payloadA; None]) as H1
    by (repeat constructor).
  assert (Forall (λ m, (Z.of_nat (len m) < 2 ^ 64)%Z) [payloadA; Some []]) as H2
    by (repeat constructor).
  split; [by repeat split|].
  apply (framing_is_injective [payloadA; None] [payloadA; Some []] H1 H2). reflexivity.
Defined.

(** ** Further properties: the reader *)

Section MoreReader.
Context {F : Type} `{!OS F}.
Implicit Types (p : Process F) (r : Reader) (c : nat) (pipePath : string).

Lemma loggedRead_halts r (numBytes : Z) p s p' :
  loggedRead r numBytes p = (Halt s, p') → r_tail r = Waiting ∧ s = Blocked OnRead.
Proof.
  unfold loggedRead, ReadFull. case_decide; [done|].
  destruct (r_tail r); [done|done|]. by intros [= <- _].
Qed.

Lemma loggedRead_same r (numBytes : Z) p :
  let p' := (loggedRead r numBytes p).2 in
  fs p' = fs p ∧ syscalls p' = syscalls p ∧ goroutines p' = goroutines p ∧
  chans p' = chans p ∧ ∃ records, glog p' = glog p ++ records.
Proof.
  cbv zeta. unfold loggedRead, ReadFull.
  case_decide; [|destruct (r_tail r)]; cbn; split_and!; try done;
    (by eexists) || (exists []; by rewrite app_nil_r).
Qed.

Lemma readFrame_same r p :
  let p' := (readFrame r p).2 in
  fs p' = fs p ∧ syscalls p' = syscalls p ∧ goroutines p' = goroutines p ∧
  chans p' = chans p ∧ ∃ records, glog p' = glog p ++ records.
Proof.
  cbv zeta. unfold readFrame. rewrite !bind_unfold.
  pose proof (loggedRead_same r numSizeBytes p) as H1. cbv zeta in H1.
  destruct (loggedRead r numSizeBytes p) as [[[b r1]|s] p1]; cbn in H1; [|exact H1].
  rewrite !bind_unfold. unfold Uint64_of.
  destruct (Uint64 (slice_bytes b)) as [v|]; [|exact H1]. cbn.
  pose proof (loggedRead_same r1 v p1) as H2. cbv zeta in H2.
  destruct H1 as (Hf1 & Hs1 & Hg1 & Hc1 & recs1 & Hl1).
  destruct H2 as (Hf2 & Hs2 & Hg2 & Hc2 & recs2 & Hl2).
  rewrite Hf2, Hs2, Hg2, Hc2, Hl2, Hl1. repeat split; try done.
  exists (recs1 ++ recs2). by rewrite app_assoc.
Qed.

Lemma readerLoop_same (fuel : nat) r c p :
  let p' := (readerLoop fuel r c p).2 in
  fs p' = fs p ∧ syscalls p' = syscalls p ∧ goroutines p' = goroutines p ∧
  (∀ c', c' ≠ c → chans p' !! c' = chans p !! c') ∧
  ∃ records, glog p' = glog p ++ records.
Proof.
  cbv zeta. revert r p. induction fuel as [|fuel IH]; intros r p.
  { repeat split. exists []. by rewrite app_nil_r. }
  rewrite readerLoop_S. pose proof (readFrame_same r p) as Hframe. cbv zeta in Hframe.
  destruct (readFrame r p) as [[[m r']|s] p']; cbn in Hframe;
    destruct Hframe as (Hfs & Hsys & Hgo & Hch & recs & Hlog);
    [|cbn; repeat split; try done; [intros c' _; by rewrite Hch|by exists recs]].
  pose proof (send_inv c m p') as Hsend.
  destruct (send c m p') as [[[]|s] p''].
  - destruct Hsend as (ch & _ & ->).
    destruct (IH r' (buffered p' c ch [m])) as (Hfs' & Hsys' & Hgo' & Hch' & recs' & Hlog').
    rewrite Hfs', Hsys', Hgo', Hlog'. cbn. repeat split; try done.
    + intros c' Hne. rewrite Hch' by done. cbn. by rewrite lookup_insert_ne, Hch.
    + exists (recs ++ recs'). by rewrite Hlog, app_assoc.
  - destruct Hsend as [_ ->]. cbn. repeat split; try done.
    + intros c' _. by rewrite Hch.
    + by exists recs.
Qed.

(** X5.  What the reader's goroutine leaves alone.  Whatever arrives on the
    pipe, and whether or not the pipe could be opened: the file system is
    unchanged, the only system call is the open of the path for reading, the
    only goroutine started is the signal handler's, the log only grows, and
    no channel other than the goroutine's own is touched. *)
Theorem reader_goroutine_footprint pipePath c (opened : error + Reader) p :
  let p' := (readerGoroutine pipePath c opened p).2 in
  fs p' = fs p ∧
  syscalls p' = syscalls p ++ [SysOpenFile pipePath O_RDONLY 511] ∧
  goroutines p' = goroutines p ++ [SignalTask] ∧
  (∃ records, glog p' = glog p ++ records) ∧
  ∀ c', c' ≠ c → chans p' !! c' = chans p !! c'.
Proof.
  cbv zeta. rewrite readerGoroutine_eq. cbv zeta.
  destruct opened as [fileErr|pipe].
  - match goal with |- context [readerLoop ?n ?r c ?q] =>
      destruct (readerLoop_same n r c q) as (-> & -> & -> & Hch & recs & ->) end.
    cbn. repeat split; try done. eexists. by rewrite <- app_assoc.
  - match goal with |- context [readerLoop ?n ?r c ?q] =>
      destruct (readerLoop_same n r c q) as (-> & -> & -> & Hch & recs & ->) end.
    cbn. repeat split; try done. by eexists.
Qed.

Lemma length_concat_frames (msgs : list slice) :
  length msgs ≤ length (concat (map frameBytes msgs)).
Proof.
  induction msgs as [|m msgs IH]; [done|].
  cbn [map concat length]. rewrite length_app, length_frameBytes. lia.
Qed.

(** X6.  Frames are decoded in order.  When the goroutine's channel has
    room for them, the messages of the frames that arrive are put there in
    the order of the wire, each as a non-nil slice with the bytes of its
    payload, and nothing is logged; the goroutine then waits for the next
    prefix. *)
Theorem reader_decodes_frames_in_order pipePath c ch (msgs : list slice) p :
  Forall (λ m, (Z.of_nat (len m) < 2 ^ 64)%Z) msgs →
  chans p !! c = Some ch → ch_closed ch = false →
  length (ch_buf ch) + length msgs ≤ ch_cap ch →
  ∃ p',
    readerGoroutine pipePath c
      (inr {| r_data := concat (map frameBytes msgs); r_tail := Waiting |}) p
    = (Halt (Blocked OnRead), p') ∧
    pending c p' = ch_buf ch ++ map (λ m, Some (slice_bytes m)) msgs ∧
    glog p' = glog p.
Proof.
  intros Hall Hc Hopen Hroom. rewrite readerGoroutine_eq. cbv zeta. cbn [r_data].
  pose proof (length_concat_frames msgs) as Hlen.
  set (p1 := record (go SignalTask p).2 (fs p) (SysOpenFile pipePath O_RDONLY 511)).
  replace (S (length (concat (map frameBytes msgs))))
    with (length msgs + S (length (concat (map frameBytes msgs)) - length msgs)) by lia.
  rewrite <- (app_nil_r (concat (map frameBytes msgs))).
  rewrite (readerLoop_frames msgs [] Waiting c _ p1 ch) by done.
  rewrite readerLoop_S.
  pose proof (readFrame_short_prefix {| r_data := []; r_tail := Waiting |}
                (buffered p1 c ch (map (λ m, Some (slice_bytes m)) msgs))
                ltac:(cbn; lia)) as Hshort.
  cbn [r_tail] in Hshort. rewrite Hshort.
  eexists. split; [done|]. split; [|done].
  unfold pending. by rewrite buffered_lookup.
Qed.

(** X7.  A full channel stops the reader.  When the frames on the wire are
    more than the goroutine's channel has room for, the goroutine puts the
    first ones there and blocks on the send of the next, whatever follows
    on the pipe. *)
Theorem reader_blocks_on_full_channel pipePath c ch (first : list slice) (next : slice)
    (rest : list byte) (tl : Tail) p :
  Forall (λ m, (Z.of_nat (len m) < 2 ^ 64)%Z) first → (Z.of_nat (len next) < 2 ^ 64)%Z →
  chans p !! c = Some ch → ch_closed ch = false →
  length (ch_buf ch) + length first = ch_cap ch →
  ∃ p',
    readerGoroutine pipePath c
      (inr {| r_data := concat (map frameBytes (first ++ [next])) ++ rest; r_tail := tl |}) p
    = (Halt (Blocked OnSend), p') ∧
    pending c p' = ch_buf ch ++ map (λ m, Some (slice_bytes m)) first.
Proof.
  intros Hall Hnext Hc Hopen Hroom. rewrite readerGoroutine_eq. cbv zeta. cbn [r_data].
  set (data := concat (map frameBytes (first ++ [next])) ++ rest).
  assert (length first < length data) as Hlen.
  { unfold data. pose proof (length_concat_frames (first ++ [next])) as Hl.
    rewrite !length_app in *. cbn in Hl. lia. }
  set (p1 := record (go SignalTask p).2 (fs p) (SysOpenFile pipePath O_RDONLY 511)).
  replace (S (length data)) with (length first + S (length data - length first)) by lia.
  unfold data. rewrite (readerLoop_blocks_after_capacity first next rest tl c ch _ p1) by done.
  eexists. split; [done|]. unfold pending. by rewrite buffered_lookup.
Qed.

Lemma send_halts c (m : slice) p s p' :
  send c m p = (Halt s, p') → s = Blocked OnSend ∨ s = Panic "send on closed channel".
Proof.
  unfold send. destruct (chans p !! c) as [ch|]; [|intros [= <- _]; by left].
  destruct (ch_closed ch); [intros [= <- _]; by right|].
  case_decide; [done|]. intros [= <- _]. by left.
Qed.

Lemma readFrame_halts_at_end r p s p' :
  r_tail r ≠ Waiting → readFrame r p = (Halt s, p') → s = Panic "index out of range [7]".
Proof.
  intros Htl. unfold readFrame. rewrite bind_unfold.
  destruct (loggedRead r numSizeBytes p) as [[[b r1]|s1] p1] eqn:H1.
  - rewrite bind_unfold. unfold Uint64_of at 1.
    destruct (Uint64 (slice_bytes b)) as [v|]; [|by intros [= <- _]].
    cbn. intros H2. apply loggedRead_halts in H2 as [Hw _].
    destruct (loggedRead_cases r numSizeBytes p)
      as [(d & rst & _ & _ & Hr)|[[_ Hr]|(_ & e & Hr)]];
      rewrite Hr in H1; simplify_eq/=; done.
  - apply loggedRead_halts in H1 as [Hw _]. congruence.
Qed.

Lemma readerLoop_ends_at_end (fuel : nat) r c p :
  r_tail r ≠ Waiting → length (r_data r) < fuel →
  ∃ s, (readerLoop fuel r c p).1 = Halt s ∧
       (s = Panic "index out of range [7]" ∨ s = Blocked OnSend ∨
        s = Panic "send on closed channel").
Proof.
  revert r p. induction fuel as [|fuel IH]; intros r p Htl Hlen; [lia|].
  rewrite readerLoop_S. pose proof (readFrame_inv r p) as Hinv.
  destruct (readFrame r p) as [[[m r']|s] p'] eqn:Hframe.
  - destruct Hinv as (Hr' & Htl' & _).
    destruct (send c m p') as [[[]|s] p''] eqn:Hsend.
    + apply IH; [by rewrite Htl'|lia].
    + exists s. split; [done|]. right. by eapply send_halts.
  - exists s. split; [done|]. left. by eapply readFrame_halts_at_end.
Qed.

(** X9.  A failed open does not stop the reader's goroutine: it logs the
    error, goes on with the nil file, logs the failed read of the prefix
    and panics.  Nothing is sent. *)
Theorem reader_open_failure_panics pipePath c (fileErr : error) p :
  let p' := (readerGoroutine pipePath c (inl fileErr) p).2 in
  (readerGoroutine pipePath c (inl fileErr) p).1 = Halt (Panic "index out of range [7]") ∧
  glog p' = glog p ++ [CannotOpenForReading fileErr; ReadError ErrInvalid 8 0] ∧
  chans p' = chans p.
Proof.
  cbv zeta. rewrite readerGoroutine_eq. cbv zeta. rewrite readerLoop_S. lazy -[app].
  by rewrite <- app_assoc.
Qed.

End MoreReader.

(** ** Further properties: the writer *)

Section MoreWriter.
Context {F : Type} `{!OS F}.
Implicit Types (p : Process F) (c : nat) (b : bufioWriter) (pipePath : string).

Lemma writerGoroutine_eq {W} `{!BufWriter W} pipePath c (nilFile : W) (opened : error + W) p :
  writerGoroutine pipePath c nilFile opened p
  = let p1 := record (go SignalTask p).2 (fs p) (SysOpenFile pipePath O_WRONLY 511) in
    match opened with
    | inl fileErr =>
        writerLoop (S (length (pending c p))) nilFile c
          (logged p1 (CannotOpenForWriting fileErr))
    | inr pipe => writerLoop (S (length (pending c p))) pipe c p1
    end.
Proof. by destruct opened. Qed.

(** X10.  The writer frames its queue in order.  Over a pipe that is being
    read, and with a queue that is closed, the goroutine writes the frame
    of every queued message, in the order of the queue, flushes each, and
    returns with all frames on the wire and an empty buffer.  Nothing is
    logged and the queue is left empty. *)
Theorem writer_frames_queue_in_order pipePath c ch (pipe : PipeEnd)
    (nilFile : bufioWriter) p :
  room pipe = None → chans p !! c = Some ch → ch_closed ch = true →
  ∃ p',
    writerGoroutine pipePath c nilFile (inr (NewWriter pipe)) p
    = (Ret {| bw_err := None; bw_buf := []; bw_size := defaultBufSize;
              bw_wr := {| wire := wire pipe ++ concat (map frameBytes (ch_buf ch));
                          room := None |} |}, p') ∧
    pending c p' = [] ∧ glog p' = glog p.
Proof.
  intros Hroom Hc Hclosed. rewrite writerGoroutine_eq. cbv zeta.
  set (p1 := record (go SignalTask p).2 (fs p) (SysOpenFile pipePath O_WRONLY 511)).
  assert (pending c p = ch_buf ch) as -> by (unfold pending; by rewrite Hc).
  rewrite (writerLoop_healthy (ch_buf ch) c ch (NewWriter pipe) p1) by (done || lia).
  rewrite Hclosed. eexists. split; [done|]. split; [|done].
  rewrite pending_drained. apply drop_all.
Qed.



Lemma bufio_Write_fits b (data : list byte) :
  bw_err b = None → length data ≤ Available b →
  bufio_Write b data
  = ({| bw_err := None; bw_buf := bw_buf b ++ data; bw_size := bw_size b; bw_wr := bw_wr b |},
     (length data, None)).
Proof.
  intros Herr Hfit. unfold bufio_Write.
  rewrite bufio_Write_loop_settled by lia. by rewrite Herr.
Qed.

Lemma bufio_Write_failed b (data : list byte) e :
  bw_err b = Some e → bufio_Write b data = (b, (0, Some e)).
Proof.
  intros Herr. unfold bufio_Write.
  rewrite bufio_Write_loop_settled by (rewrite Herr; by intros [_ ?]).
  by rewrite Herr.
Qed.

(** A frame that fits the buffer, flushed into a pipe whose reader takes
    fewer bytes than the frame has: [writeFrame] returns as if all was
    well, and the writer keeps the error. *)
Lemma writeFrame_flush_fails b (k : nat) (data : slice) p :
  bw_err b = None → bw_buf b = [] → room (bw_wr b) = Some k →
  8 + len data ≤ bw_size b → k < 8 + len data →
  writeFrame b data p
  = (Ret {| bw_err := Some (Errno EPIPE); bw_buf := drop k (frameBytes data);
            bw_size := bw_size b;
            bw_wr := {| wire := wire (bw_wr b) ++ take k (frameBytes data);
                        room := Some 0 |} |}, p).
Proof.
  intros Herr Hbuf Hroom Hsize Hk. unfold writeFrame.
  set (sizeBytes := PutUint64 (uint64 (Z.of_nat (len data)))).
  assert (length sizeBytes = 8) as Hprefix by reflexivity.
  assert (bufio_Write b sizeBytes
          = ({| bw_err := None; bw_buf := sizeBytes; bw_size := bw_size b;
                bw_wr := bw_wr b |}, (8, None))) as Hw1.
  { rewrite bufio_Write_fits; [by rewrite Hbuf|done|].
    unfold Available, Buffered. rewrite Hbuf, Hprefix. cbn [length]. lia. }
  rewrite bind_unfold, (loggedWrite_ok (BufWriter0 := bufioWriter_BufWriter) _ _ _ _ p Hw1).
  set (w1 := {| bw_err := None; bw_buf := sizeBytes; bw_size := bw_size b;
                bw_wr := bw_wr b |}).
  assert (bufio_Write w1 (slice_bytes data)
          = ({| bw_err := None; bw_buf := frameBytes data; bw_size := bw_size b;
                bw_wr := bw_wr b |}, (len data, None))) as Hw2.
  { rewrite bufio_Write_fits; [done|done|].
    unfold Available, Buffered, w1. cbn [bw_buf bw_size]. rewrite Hprefix.
    unfold len in Hsize. lia. }
  rewrite bind_unfold, (loggedWrite_ok (BufWriter0 := bufioWriter_BufWriter) _ _ _ _ p Hw2).
  set (w2 := {| bw_err := None; bw_buf := frameBytes data; bw_size := bw_size b;
                bw_wr := bw_wr b |}).
  change (Flush w2) with (bufio_Flush w2).
  assert (bufio_Flush w2
          = ({| bw_err := Some (Errno EPIPE); bw_buf := drop k (frameBytes data);
                bw_size := bw_size b;
                bw_wr := {| wire := wire (bw_wr b) ++ take k (frameBytes data);
                            room := Some 0 |} |}, Some (Errno EPIPE))) as ->; [|done].
  unfold bufio_Flush, w2, Buffered. cbn [bw_err bw_buf bw_size bw_wr].
  rewrite length_frameBytes, decide_False by lia.
  unfold pipe_Write. rewrite Hroom, length_frameBytes, decide_False by lia.
  by rewrite decide_False by (by intros [_ ?]).
Qed.

(** X12.  A flush that fails is not fatal at once.  When the reader of the
    pipe goes away while a frame is flushed, the loop does not notice: if
    the queue is then closed, the goroutine's loop returns as after a
    success, with the frame cut short on the wire and nothing logged; if
    another message follows, the loop exits the process with code 1 when it
    writes that message's prefix. *)
Theorem flush_error_surfaces_at_next_message b (k : nat) (data : slice)
    (later : list slice) c ch (fuel : nat) p :
  bw_err b = None → bw_buf b = [] → room (bw_wr b) = Some k →
  8 + len data ≤ bw_size b → k < 8 + len data →
  chans p !! c = Some ch → ch_buf ch = data :: later → ch_closed ch = true →
  ∃ p', glog p' = glog p ∧
    match later with
    | [] =>
        ∃ b', writerLoop (S (S fuel)) b c p = (Ret b', p') ∧
              bw_err b' = Some (Errno EPIPE) ∧
              wire (bw_wr b') = wire (bw_wr b) ++ take k (frameBytes data)
    | _ :: rest =>
        writerLoop (S (S fuel)) b c p = (Halt (Exit 1), p') ∧ pending c p' = rest
    end.
Proof.
  intros Herr Hbuf Hroom Hsize Hk Hc Hmsgs Hclosed.
  rewrite writerLoop_S, (receive_next _ _ _ _ _ Hc Hmsgs).
  rewrite (writeFrame_flush_fails b k) by done.
  rewrite writerLoop_S.
  pose proof (drained_lookup p c ch 1) as Hc1. rewrite Hmsgs in Hc1. cbn [drop] in Hc1.
  rewrite drop_0 in Hc1.
  destruct later as [|next rest].
  - rewrite (receive_end _ _ _ Hc1) by done. cbn [ch_closed]. rewrite Hclosed.
    eexists. split; [|eexists; split; [done|by split]]. done.
  - rewrite (receive_next _ _ _ next rest Hc1) by done.
    unfold writeFrame. rewrite bind_unfold.
    match goal with |- context [loggedWrite ?w ?d ?q] =>
      rewrite (loggedWrite_error (BufWriter0 := bufioWriter_BufWriter) w w d 0
                 (Errno EPIPE) q (bufio_Write_failed w d _ eq_refl)) end.
    eexists. split; [|split; [done|]]; [done|].
    by rewrite pending_drained.
Qed.

End MoreWriter.

(** ** Further properties: creating the pipe and starting the loops *)

Section MoreLifecycle.
Context {F : Type} `{!OS F}.
Implicit Types (p : Process F) (pipePath : string).

(** X13.  [CreatePipe] always returns, after at most three system calls,
    and touches nothing but the file system.  It returns nil only when its
    last call was [mkfifo] with mode 0777 and that call returned nil: a
    successful removal alone is never reported as success. *)
Theorem CreatePipe_succeeds_only_through_mkfifo pipePath p :
  ∃ result p',
    CreatePipe pipePath p = (Ret result, p') ∧
    chans p' = chans p ∧ goroutines p' = goroutines p ∧ glog p' = glog p ∧
    length (syscalls p') ≤ length (syscalls p) + 3 ∧
    (result = None →
       ∃ f calls,
         syscall_Mkfifo f pipePath 511 = (fs p', None) ∧
         syscalls p' = syscalls p ++ calls ++ [SysMkfifo pipePath 511]).
Proof.
  rewrite CreatePipe_eq. cbv zeta. destruct (IsNotExist _).
  - destruct (syscall_Mkfifo (fs p) pipePath 511) as [f' mkfifoErr] eqn:Hmk.
    eexists _, _. split; [done|]. cbn. rewrite !length_app. cbn.
    repeat split; try done; [lia|].
    intros ->. exists (fs p), [SysStat pipePath]. split; [done|]. by rewrite <- app_assoc.
  - destruct (os_Remove (fs p) pipePath) as [f [err|]].
    + eexists _, _. split; [done|]. cbn. rewrite !length_app. cbn.
      repeat split; try done. lia.
    + destruct (syscall_Mkfifo f pipePath 511) as [f' mkfifoErr] eqn:Hmk.
      eexists _, _. split; [done|]. cbn. rewrite !length_app. cbn.
      repeat split; try done; [lia|].
      intros ->. exists f, [SysStat pipePath; SysRemove pipePath]. split; [done|].
      by rewrite <- !app_assoc.
Qed.

(** X14.  What starting a loop does to the process.  [OpenPipeReader] and
    [OpenPipeWriter] make one system call, [stat], and leave the file system
    and the log alone.  The writer makes no channel.  The reader leaves
    every existing channel as it is, and the channel it hands to its
    goroutine is a new one: empty, open, of capacity 10. *)
Theorem OpenPipe_footprint pipePath (queue : nat) p :
  let r := (OpenPipeReader pipePath queue p).2 in
  let w := (OpenPipeWriter pipePath queue p).2 in
  (fs r = fs p ∧ fs w = fs p) ∧
  (syscalls r = syscalls p ++ [SysStat pipePath] ∧
   syscalls w = syscalls p ++ [SysStat pipePath]) ∧
  (glog r = glog p ∧ glog w = glog p) ∧
  chans w = chans p ∧
  (∀ c ch, chans p !! c = Some ch → chans r !! c = Some ch) ∧
  (∀ c, goroutines r = goroutines p ++ [ReaderTask pipePath c] →
        chans p !! c = None ∧
        chans r !! c = Some {| ch_cap := 10; ch_buf := []; ch_closed := false |}).
Proof.
  cbv zeta. rewrite OpenPipeReader_eq, OpenPipeWriter_eq. cbv zeta.
  destruct (IsNotExist _); cbn.
  - split_and!; try done.
    intros c Hgo. apply (f_equal length) in Hgo. rewrite length_app in Hgo. cbn in Hgo. lia.
  - assert (chans p !! fresh (dom (chans p)) = None) as Hfresh.
    { apply not_elem_of_dom. apply is_fresh. }
    split_and!; try done.
    + intros c ch Hc. rewrite lookup_insert_ne; [done|]. intros <-. congruence.
    + intros c Hgo. apply app_inv_head in Hgo. injection Hgo as <-.
      by rewrite lookup_insert_eq.
Qed.

End MoreLifecycle.

(** ** Instances of the further properties *)

Lemma reader_decodes_frames_in_order_witness :
  let ch := {| ch_cap := 10; ch_buf := []; ch_closed := false |} in
  let msgs := [payloadA; None; Some []] in
  (Forall (λ m, (Z.of_nat (len m) < 2 ^ 64)%Z) msgs ∧
   chans readerStarted !! pipeChannel = Some ch ∧ ch_closed ch = false ∧
   length (ch_buf ch) + length msgs ≤ ch_cap ch) ∧
  ∃ p',
    readerGoroutine testPipe pipeChannel
      (inr {| r_data := concat (map frameBytes msgs); r_tail := Waiting |}) readerStarted
    = (Halt (Blocked OnRead), p') ∧
    pending pipeChannel p' = ch_buf ch ++ map (λ m, Some (slice_bytes m)) msgs ∧
    glog p' = glog readerStarted.
Proof.
  cbv zeta.
  assert (Forall (λ m, (Z.of_nat (len m) < 2 ^ 64)%Z) [payloadA; None; Some []]) as Hall
    by (repeat constructor).
  split; [repeat split; (done || (by vm_compute) || (vm_compute; lia))|].
  apply (reader_decodes_frames_in_order testPipe pipeChannel
           {| ch_cap := 10; ch_buf := []; ch_closed := false |}
           [payloadA; None; Some []] readerStarted Hall);
    (by vm_compute) || (vm_compute; lia).
Defined.

Lemma reader_blocks_on_full_channel_witness :
  let ch := {| ch_cap := 10; ch_buf := []; ch_closed := false |} in
  let first := take 10 elevenMessages in
  let next := Some [Byte.x0a] in
  (Forall (λ m, (Z.of_nat (len m) < 2 ^ 64)%Z) first ∧ (Z.of_nat (len next) < 2 ^ 64)%Z ∧
   chans readerStarted !! pipeChannel = Some ch ∧ ch_closed ch = false ∧
   length (ch_buf ch) + length first = ch_cap ch) ∧
  ∃ p',
    readerGoroutine testPipe pipeChannel
      (inr {| r_data := concat (map frameBytes (first ++ [next])) ++ [Byte.xff];
              r_tail := AtEOF |}) readerStarted
    = (Halt (Blocked OnSend), p') ∧
    pending pipeChannel p' = ch_buf ch ++ map (λ m, Some (slice_bytes m)) first.
Proof.
  cbv zeta.
  assert (Forall (λ m, (Z.of_nat (len m) < 2 ^ 64)%Z) (take 10 elevenMessages)) as Hall
    by (repeat constructor).
  split; [repeat split; (done || (by vm_compute))|].
  apply (reader_blocks_on_full_channel testPipe pipeChannel
           {| ch_cap := 10; ch_buf := []; ch_closed := false |}
           (take 10 elevenMessages) (Some [Byte.x0a]) [Byte.xff] AtEOF readerStarted Hall);
    by vm_compute.
Defined.

Lemma writer_frames_queue_in_order_witness :
  let p := started withPipe 3 [payloadA; None; Some [Byte.xff]] true in
  let ch := {| ch_cap := 3; ch_buf := [payloadA; None; Some [Byte.xff]]; ch_closed := true |} in
  (room openPipe = None ∧ chans p !! callerQueue = Some ch ∧ ch_closed ch = true) ∧
  ∃ p',
    writerGoroutine testPipe callerQueue nilFileWriter (inr (NewWriter openPipe)) p
    = (Ret {| bw_err := None; bw_buf := []; bw_size := defaultBufSize;
              bw_wr := {| wire := wire openPipe ++ concat (map frameBytes (ch_buf ch));
                          room := None |} |}, p') ∧
    pending callerQueue p' = [] ∧ glog p' = glog p.
Proof.
  cbv zeta. split; [by vm_compute|].
  apply (writer_frames_queue_in_order testPipe callerQueue
           {| ch_cap := 3; ch_buf := [payloadA; None; Some [Byte.xff]]; ch_closed := true |}
           openPipe nilFileWriter (started withPipe 3 [payloadA; None; Some [Byte.xff]] true));
    by vm_compute.
Defined.


Lemma flush_error_surfaces_at_next_message_witness :
  let p := started withPipe 3 [payloadA] true in
  let ch := {| ch_cap := 3; ch_buf := [payloadA]; ch_closed := true |} in
  (bw_err nilFileWriter = None ∧ bw_buf nilFileWriter = [] ∧
   room (bw_wr nilFileWriter) = Some 0 ∧ 8 + len payloadA ≤ bw_size nilFileWriter ∧
   0 < 8 + len payloadA ∧ chans p !! callerQueue = Some ch ∧
   ch_buf ch = payloadA :: [] ∧ ch_closed ch = true) ∧
  ∃ p', glog p' = glog p ∧
    ∃ b', writerLoop 2 nilFileWriter callerQueue p = (Ret b', p') ∧
          bw_err b' = Some (Errno EPIPE) ∧
          wire (bw_wr b') = wire (bw_wr nilFileWriter) ++ take 0 (frameBytes payloadA).
Proof.
  cbv zeta. split; [repeat split; (by vm_compute) || (vm_compute; lia)|].
  apply (flush_error_surfaces_at_next_message nilFileWriter 0 payloadA [] callerQueue
           {| ch_cap := 3; ch_buf := [payloadA]; ch_closed := true |} 0
           (started withPipe 3 [payloadA] true));
    (by vm_compute) || (vm_compute; lia).
Defined.

Lemma CreatePipe_succeeds_only_through_mkfifo_witness :
  let p := started withPipe 10 [] false in
  (CreatePipe testPipe p).1 = Ret None ∧
  ∃ f calls,
    syscall_Mkfifo f testPipe 511 = (fs (CreatePipe testPipe p).2, None) ∧
    syscalls (CreatePipe testPipe p).2 = syscalls p ++ calls ++ [SysMkfifo testPipe 511].
Proof.
  cbv zeta.
  assert ((CreatePipe testPipe (started withPipe 10 [] false)).1 = Ret None) as Hnil
    by (by vm_compute).
  split; [exact Hnil|].
  destruct (CreatePipe_succeeds_only_through_mkfifo testPipe (started withPipe 10 [] false))
    as (result & p' & Hrun & _ & _ & _ & _ & Hmkfifo).
  rewrite Hrun in Hnil |- *. cbn [fst snd] in Hnil |- *.
  apply Hmkfifo. congruence.
Defined.

Lemma OpenPipe_footprint_witness :
  let p := started withPipe 10 [payloadA] false in
  let r := (OpenPipeReader testPipe callerQueue p).2 in
  goroutines r = goroutines p ++ [ReaderTask testPipe pipeChannel] ∧
  chans p !! pipeChannel = None ∧
  chans r !! pipeChannel = Some {| ch_cap := 10; ch_buf := []; ch_closed := false |}.
Proof.
  cbv zeta.
  assert (goroutines (OpenPipeReader testPipe callerQueue
                        (started withPipe 10 [payloadA] false)).2
          = goroutines (started withPipe 10 [payloadA] false)
            ++ [ReaderTask testPipe pipeChannel]) as Hgo by (by vm_compute).
  split; [exact Hgo|].
  destruct (OpenPipe_footprint testPipe callerQueue (started withPipe 10 [payloadA] false))
    as (_ & _ & _ & _ & _ & Hnew).
  exact (Hnew pipeChannel Hgo).
Defined.

(** * The reader with the allocator *)

Section LimitedReader.
Context {F : Type} `{!OS F} (rt : Runtime).
Implicit Types (p : Process F) (r : Reader) (c : nat) (pipePath : string).

Lemma makeslice_eq (numBytes : Z) p :
  Limited.makeslice rt numBytes p
  = if decide (maxAlloc rt < numBytes)%Z then (Halt (Panic "makeslice: len out of range"), p)
    else if decide (memory rt < numBytes)%Z then (Halt (Fatal "runtime: out of memory"), p)
    else (Ret tt, p).
Proof. unfold Limited.makeslice. by repeat case_decide. Qed.

Lemma Limited_loggedRead_eq r (numBytes : Z) p :
  Limited.loggedRead rt r numBytes p
  = if decide (maxAlloc rt < numBytes)%Z then (Halt (Panic "makeslice: len out of range"), p)
    else if decide (memory rt < numBytes)%Z then (Halt (Fatal "runtime: out of memory"), p)
    else loggedRead r numBytes p.
Proof.
  unfold Limited.loggedRead. rewrite bind_unfold, makeslice_eq.
  by repeat case_decide.
Qed.




Lemma Limited_readerLoop_S (fuel : nat) r c p :
  Limited.readerLoop rt (S fuel) r c p
  = match Limited.readFrame rt r p with
    | (Ret (readData, r'), p') =>
        match send c readData p' with
        | (Ret _, p'') => Limited.readerLoop rt fuel r' c p''
        | (Halt s, p'') => (Halt s, p'')
        end
    | (Halt s, p') => (Halt s, p')
    end.
Proof.
  cbn [Limited.readerLoop]. rewrite bind_unfold.
  destruct (Limited.readFrame rt r p) as [[[m r']|s] p']; [|done].
  by rewrite bind_unfold.
Qed.

Lemma Limited_readerGoroutine_eq pipePath c (opened : error + Reader) p :
  Limited.readerGoroutine rt pipePath c opened p
  = let p1 := record (go SignalTask p).2 (fs p) (SysOpenFile pipePath O_RDONLY 511) in
    match opened with
    | inl fileErr =>
        Limited.readerLoop rt 1 nilFileReader c (logged p1 (CannotOpenForReading fileErr))
    | inr pipe => Limited.readerLoop rt (S (length (r_data pipe))) pipe c p1
    end.
Proof. by destruct opened. Qed.



Lemma Limited_readFrame_cases r p :
  Limited.readFrame rt r p = readFrame r p ∨
  ∃ s p', Limited.readFrame rt r p = (Halt s, p') ∧
          (s = Panic "makeslice: len out of range" ∨ s = Fatal "runtime: out of memory").
Proof.
  unfold Limited.readFrame, readFrame. rewrite !bind_unfold, Limited_loggedRead_eq.
  case_decide; [right; by eexists _, _; split; [|left]|].
  case_decide; [right; by eexists _, _; split; [|right]|].
  destruct (loggedRead r numSizeBytes p) as [[[b r1]|s] p1]; [|by left].
  rewrite !bind_unfold. destruct (Uint64_of b p1) as [[v|s] p2]; [|by left].
  rewrite Limited_loggedRead_eq.
  case_decide; [right; by eexists _, _; split; [|left]|].
  case_decide; [right; by eexists _, _; split; [|right]|].
  by left.
Qed.

Lemma Limited_readerLoop_ends_at_end (fuel : nat) r c p :
  r_tail r ≠ Waiting → length (r_data r) < fuel →
  ∃ s, (Limited.readerLoop rt fuel r c p).1 = Halt s ∧
       (s = Panic "index out of range [7]" ∨ s = Panic "makeslice: len out of range" ∨
        s = Fatal "runtime: out of memory" ∨ s = Blocked OnSend ∨
        s = Panic "send on closed channel").
Proof.
  revert r p. induction fuel as [|fuel IH]; intros r p Htl Hlen; [lia|].
  rewrite Limited_readerLoop_S.
  destruct (Limited_readFrame_cases r p) as [->|(s & p' & -> & Hs)].
  - pose proof (readFrame_inv r p) as Hinv.
    destruct (readFrame r p) as [[[m r']|s] p'] eqn:Hframe.
    + destruct Hinv as (Hr' & Htl' & _).
      destruct (send c m p') as [[[]|s] p''] eqn:Hsend.
      * apply IH; [by rewrite Htl'|lia].
      * exists s. split; [done|]. apply send_halts in Hsend. tauto.
    + exists s. split; [done|]. left. by eapply readFrame_halts_at_end.
  - exists s. split; [done|]. tauto.
Qed.

(** X4.  [loggedRead] returns all the bytes asked for or nil, never a
    partial buffer.  When the runtime cannot allocate the buffer it stops
    the process in [make], with the stream untouched and nothing logged.
    Otherwise it returns the bytes at the front of the stream and logs
    nothing; or, on a stream that is too short and ends or fails, it uses
    up the stream, logs one record with the number of bytes read and
    returns nil; or, on a short stream that stays open, it never returns. *)
Theorem loggedRead_outcomes r (numBytes : Z) p :
  match Limited.loggedRead rt r numBytes p with
  | (Ret (Some data, r'), p') =>
      allocatable rt numBytes ∧
      r_data r = data ++ r_data r' ∧ length data = Z.to_nat numBytes ∧
      r_tail r' = r_tail r ∧ p' = p
  | (Ret (None, r'), p') =>
      allocatable rt numBytes ∧
      length (r_data r) < Z.to_nat numBytes ∧ r_tail r ≠ Waiting ∧
      r' = {| r_data := []; r_tail := r_tail r |} ∧
      ∃ readErr, p' = logged p (ReadError readErr numBytes (length (r_data r)))
  | (Halt s, p') =>
      p' = p ∧
      (s = Panic "makeslice: len out of range" ∧ (maxAlloc rt < numBytes)%Z
       ∨ s = Fatal "runtime: out of memory" ∧
         (numBytes ≤ maxAlloc rt)%Z ∧ (memory rt < numBytes)%Z
       ∨ s = Blocked OnRead ∧ allocatable rt numBytes ∧
         length (r_data r) < Z.to_nat numBytes ∧ r_tail r = Waiting)
  end.
Proof.
  rewrite Limited_loggedRead_eq. unfold allocatable.
  case_decide; [split; [done|by left]|].
  case_decide; [split; [done|right; left; split_and!; [done|lia|done]]|].
  unfold loggedRead, ReadFull. case_decide as Hlen.
  - cbn. rewrite take_drop, length_take. split_and!; try done; lia.
  - destruct (r_tail r) eqn:Htl; cbn.
    + split_and!; try done; try lia. by eexists.
    + split_and!; try done; try lia. by eexists.
    + split; [done|]. right; right. split_and!; try done; lia.
Qed.

(** X8.  The reader does not outlive its pipe.  Once the pipe ends or
    fails, the goroutine cannot go on: it stops in the index panic of
    [Uint64] on a nil prefix, unless it is stopped before by [make] on a
    length the runtime cannot allocate, or at a send. *)
Theorem reader_does_not_outlive_pipe pipePath c (pipe : Reader) p :
  r_tail pipe ≠ Waiting →
  ∃ s, (Limited.readerGoroutine rt pipePath c (inr pipe) p).1 = Halt s ∧
       (s = Panic "index out of range [7]" ∨ s = Panic "makeslice: len out of range" ∨
        s = Fatal "runtime: out of memory" ∨ s = Blocked OnSend ∨
        s = Panic "send on closed channel").
Proof.
  intros Htl. rewrite Limited_readerGoroutine_eq. cbv zeta.
  apply Limited_readerLoop_ends_at_end; [done|lia].
Qed.

End LimitedReader.


(** A prefix of eight bytes ff and the end of the pipe. *)
Lemma reader_does_not_outlive_pipe_witness :
  let pipe := {| r_data := replicate 8 Byte.xff; r_tail := AtEOF |} in
  r_tail pipe ≠ Waiting ∧
  ∃ s, (Limited.readerGoroutine amd64 testPipe pipeChannel (inr pipe) readerStarted).1
       = Halt s ∧
       (s = Panic "index out of range [7]" ∨ s = Panic "makeslice: len out of range" ∨
        s = Fatal "runtime: out of memory" ∨ s = Blocked OnSend ∨
        s = Panic "send on closed channel").
Proof.
  cbv zeta. split; [done|].
  by apply (reader_does_not_outlive_pipe amd64 testPipe pipeChannel
              {| r_data := replicate 8 Byte.xff; r_tail := AtEOF |} readerStarted).
Defined.

(** * Where the claims as stated fail *)

(** C6, the claim as stated fails.  Nothing is at the path, in a directory
    that may not be searched: [os.Stat] fails with [EACCES], and both calls
    return nil and start their goroutine. *)
Lemma missing_path_in_locked_directory_starts_loops :
  let p := started lockedDirectory 10 [] false in
  nodes (fs p) !! testPipe = None ∧
  (OpenPipeReader testPipe callerQueue p).1 = Ret None ∧
  goroutines (OpenPipeReader testPipe callerQueue p).2 = [ReaderTask testPipe pipeChannel] ∧
  (OpenPipeWriter testPipe callerQueue p).1 = Ret None ∧
  goroutines (OpenPipeWriter testPipe callerQueue p).2 = [WriterTask testPipe callerQueue].
Proof. vm_compute. repeat split; done. Qed.

(** C7, the claim as stated fails.  Nothing is at the path, in a directory
    that may not be searched: [CreatePipe] calls [remove] all the same,
    returns its error and never calls [mkfifo]. *)
Lemma missing_path_in_locked_directory_is_not_created :
  let p := started lockedDirectory 10 [] false in
  nodes (fs p) !! testPipe = None ∧
  (CreatePipe testPipe p).1 = Ret (Some (Errno EACCES)) ∧
  syscalls (CreatePipe testPipe p).2 = [SysStat testPipe; SysRemove testPipe].
Proof. vm_compute. repeat split; done. Qed.

